(** * utils/wrapper.py: the training wrapper of the whisper-guided VC model

    A shallow embedding of [TrainingWrapper.random_segment] and
    [TrainingWrapper.compute_loss], and the properties of the loss
    construction that follow from the code.

    Conventions of the embedding.
    - Python exceptions are the [Raise] results of an error monad.
    - Integers are [Z].  The entries of an [np.long] array are 64-bit signed
      integers ([np_long]); arithmetic on them wraps around ([wrap64]), as
      numpy's does.  [config.train.seglen] is a Python [int]; what numpy does
      with one that does not fit [np.long] is left out.
    - A two-dimensional tensor is the list of its rows.  A tensor with no row
      does not record its width, so torch's shape checks against the width of
      such a tensor are not modelled.
    - Tensor entries are real numbers: rounding of [float32] is idealised
      away.  The special values a floating computation can produce from
      finite inputs ([-inf] of [log 0], [nan] of an empty mean) are kept,
      in the type [xreal].
    - Every random draw of the code is an explicit argument: what the
      generator supplies to the call, which the sampling function brings into
      the shape and the range it draws from.  A sample the function can return
      is returned as it is. *)

From Stdlib Require Import ZArith List Bool FinFun Lia Reals Lra.
Import ListNotations.

Local Open Scope Z_scope.

(** ** Exceptions *)

Inductive error : Type :=
| ValueError      (* numpy: bad range, bad shapes to stack *)
| IndexError      (* indexing an empty tensor *)
| RuntimeError    (* torch: operation not implemented for a dtype, bad range *)
| CollaboratorError. (* raised inside model.diffusion/spkembed/denoise/scheduler *)

Inductive result (A : Type) : Type :=
| Ok (a : A)
| Raise (e : error).

Arguments Ok {A} a.
Arguments Raise {A} e.

Definition bind {A B : Type} (r : result A) (k : A -> result B) : result B :=
  match r with
  | Ok a => k a
  | Raise e => Raise e
  end.

Notation "x <- r ;; k" := (bind r (fun x => k))
  (at level 61, r at next level, right associativity).
Notation "' p <- r ;; k" := (bind r (fun p => k))
  (at level 61, p pattern, r at next level, right associativity).

Definition is_ok {A : Type} (r : result A) : bool :=
  match r with Ok _ => true | Raise _ => false end.

(** ** Configuration: [config.train.seglen], [config.train.null_prob],
    [config.model.steps] *)

Record TrainConfig : Type := { seglen : Z; null_prob : R }.
Record ModelConfig : Type := { steps : Z }.
Record Config : Type := { train : TrainConfig; model : ModelConfig }.

(** ** numpy *)

(** [np.long]: 64-bit signed integers, [2^63] and [2^64] written out. *)
Definition int64_half : Z := 9223372036854775808.
Definition int64_modulus : Z := 18446744073709551616.

Definition np_long (z : Z) : Prop := - int64_half <= z < int64_half.

(** The [np.long] value of an exact result: two's complement wrap-around. *)
Definition wrap64 (z : Z) : Z :=
  (z + int64_half) mod int64_modulus - int64_half.

Section Numpy.
Context {A : Type}.

(** Normalisation of one bound of a slice [n[lo:hi]] of a sequence of
    length [len]: a negative bound counts from the end, and both are
    clipped to [0 .. len]. *)
Definition slice_bound (len i : Z) : Z :=
  if i <? 0 then Z.max (i + len) 0 else Z.min i len.

(** [len(n)]: the length of an array is a C [ssize_t], below [2^63]. *)
Definition array_len (n : list A) : Z :=
  Z.min (Z.of_nat (length n)) (int64_half - 1).

(** [n[lo:hi]] *)
Definition py_slice (n : list A) (lo hi : Z) : list A :=
  let len := array_len n in
  let a := slice_bound len lo in
  let b := slice_bound len hi in
  firstn (Z.to_nat (b - a)) (skipn (Z.to_nat a) n).

(** [np.stack(rows)]: needs at least one array, all of one shape. *)
Definition np_stack (rows : list (list A)) : result (list (list A)) :=
  match rows with
  | [] => Raise ValueError
  | r :: rs =>
      if forallb (fun r' => Nat.eqb (length r') (length r)) rs
      then Ok rows
      else Raise ValueError
  end.
End Numpy.

(** [np.random.randint(low)] with [high=None] draws from the half-open
    interval [[0, low)]: its equiprobable outcomes, listed. *)
Definition randint_support (high : Z) : list Z :=
  map Z.of_nat (seq 0 (Z.to_nat high)).

(** The samples [np.random.randint(high)] can return for an array [high]:
    one independent draw per entry. *)
Definition randint_sample (high sample : list Z) : Prop :=
  Forall2 (fun h s => In s (randint_support h)) high sample.

(** The values drawn for the entries of [high] from the integers [raw] the
    generator supplies, one per entry: each is brought into [[0, high[i])]. *)
Fixpoint randint_values (high raw : list Z) : list Z :=
  match high with
  | [] => []
  | h :: hs => hd 0 raw mod h :: randint_values hs (tl raw)
  end.

(** [np.random.randint(high)] for an array [high]: [ValueError] as soon as
    one interval [[0, high[i])] is empty or [high[i]] is beyond [np.long],
    else one value of [[0, high[i])] per entry. *)
Definition np_random_randint (high raw : list Z) : result (list Z) :=
  if existsb (fun h => (h <=? 0) || (int64_half <? h)) high
  then Raise ValueError
  else Ok (randint_values high raw).

(** ** TrainingWrapper.random_segment *)

Section RandomSegment.
Context {A : Type}.
Variable config : Config.

(** [sample] is what the generator supplies to [np.random.randint] in this
    call.  [lengths - seglen] and [s + seglen] are [np.long] arithmetic. *)
Definition random_segment (speeches : list (list A)) (lengths : list Z)
    (sample : list Z) : result (list (list A)) :=
  let seglen := config.(train).(seglen) in
  start <- np_random_randint (map (fun l => wrap64 (l - seglen)) lengths)
             sample ;;
  np_stack (map (fun '(n, s) => py_slice n s (wrap64 (s + seglen)))
                (combine speeches start)).
End RandomSegment.

(** The sub-window [[s, s+len)] of a row, the way the spec words it. *)
Definition window {A : Type} (n : list A) (s len : Z) : list A :=
  firstn (Z.to_nat len) (skipn (Z.to_nat s) n).


(** ** Floating values: a real, or one of the special values *)

Local Open Scope R_scope.

Inductive xreal : Type :=
| XFin (r : R)
| XNegInf
| XPosInf
| XNaN.

Definition xneg (a : xreal) : xreal :=
  match a with
  | XFin x => XFin (- x)
  | XNegInf => XPosInf
  | XPosInf => XNegInf
  | XNaN => XNaN
  end.

Definition xadd (a b : xreal) : xreal :=
  match a, b with
  | XNaN, _ | _, XNaN => XNaN
  | XFin x, XFin y => XFin (x + y)
  | XPosInf, XNegInf | XNegInf, XPosInf => XNaN
  | XPosInf, _ | _, XPosInf => XPosInf
  | XNegInf, _ | _, XNegInf => XNegInf
  end.

Definition xsub (a b : xreal) : xreal := xadd a (xneg b).

Definition is_finite (a : xreal) : bool :=
  match a with XFin _ => true | _ => false end.

(** ** torch *)

Definition matrix : Type := list (list R).

Inductive dtype : Type :=
| torch_long | torch_int | torch_short | torch_uint8 | torch_bool
| torch_float16 | torch_float32 | torch_float64.

Definition is_floating_point (d : dtype) : bool :=
  match d with
  | torch_float16 | torch_float32 | torch_float64 => true
  | _ => false
  end.

(** A one-dimensional tensor: its dtype and its entries (integers, for an
    integer dtype). *)
Record tensor1 : Type := { t_dtype : dtype; t_data : list R }.

Definition Rltb (x y : R) : bool := if Rlt_dec x y then true else false.

(** [torch.randint(high, (n,))]: integers of [[0, high)]; the range must not
    be empty. *)
Definition torch_randint (high : Z) (n : nat) (sample : list Z)
  : result (list Z) :=
  if (high <=? 0)%Z then Raise RuntimeError else Ok sample.

Definition randint_draw (high : Z) (n : nat) (sample : list Z) : Prop :=
  length sample = n /\ Forall (fun s => (0 <= s < high)%Z) sample.

(** As many entries of [raw] as [shape] has, [d] where [raw] runs out. *)
Fixpoint fill_like {A B : Type} (d : B) (shape : list A) (raw : list B)
  : list B :=
  match shape with
  | [] => []
  | _ :: shape' => hd d raw :: fill_like d shape' (tl raw)
  end.

(** [torch.randn_like(m)]: standard normal entries, in the shape of [m]. *)
Fixpoint torch_randn_like (m raw : matrix) : matrix :=
  match m with
  | [] => []
  | row :: m' => fill_like 0 row (hd [] raw) :: torch_randn_like m' (tl raw)
  end.

Definition randn_draw (m sample : matrix) : Prop :=
  Forall2 (fun r s => length r = length s) m sample.

(** The entries of [[0, 1)] drawn in the shape of [t] from the reals [raw] the
    generator supplies: the fractional part of each. *)
Definition rand_values (t : tensor1) (raw : list R) : list R :=
  map frac_part (fill_like 0 t.(t_data) raw).

(** [torch.rand_like(t)]: uniform entries of [[0, 1)] in the shape and the
    dtype of [t]; uniform sampling is implemented for the floating dtypes
    only. *)

Definition torch_rand_like (t : tensor1) (raw : list R) : result (list R) :=
  if is_floating_point t.(t_dtype)
  then Ok (rand_values t raw)
  else Raise RuntimeError.

Definition rand_draw (t : tensor1) (sample : list R) : Prop :=
  length sample = length t.(t_data) /\ Forall (fun u => 0 <= u < 1) sample.

(** The width [E] of an [[B, E]] tensor, read off its first row. *)
Definition width (m : matrix) : nat := length (hd [] m).

(** A vector broadcast to the width [E]: itself when it has that width, its
    single entry repeated otherwise. *)
Definition broadcast_row (row : list R) (E : nat) : list R :=
  if Nat.eqb (length row) E then row else repeat (hd 0 row) E.

(** Whether a vector can be broadcast to the rows of [emb]: it has their
    width, or one entry. *)
Definition value_fits (row : list R) (emb : matrix) : bool :=
  match emb with
  | [] => true
  | e :: _ => Nat.eqb (length row) (length e) || Nat.eqb (length row) 1
  end.

(** [emb[mask] = row] for an [[B, E]] tensor [emb], a boolean mask and a
    vector [row]: the mask must have the length [B] of [emb] ([IndexError]),
    [row] must broadcast to width [E] ([RuntimeError], also when the mask
    selects no row), and the rows the mask selects become the broadcast
    [row]. *)
Definition masked_assign (emb : matrix) (mask : list bool) (row : list R)
  : result matrix :=
  if negb (Nat.eqb (length mask) (length emb)) then Raise IndexError
  else if value_fits row emb
  then Ok (map (fun '(e, b) =>
                  if b : bool then broadcast_row row (width emb) else e)
               (combine emb mask))
  else Raise RuntimeError.

(** One dimension of torch's broadcasting: equal sizes pair up, a size of [1]
    is repeated along the other operand, anything else is a [RuntimeError]. *)
Definition broadcast2 {A B C : Type} (f : A -> B -> C) (x : list A)
    (y : list B) : result (list C) :=
  if Nat.eqb (length x) (length y)
  then Ok (map (fun '(a, b) => f a b) (combine x y))
  else match x, y with
       | [a], _ => Ok (map (f a) y)
       | _, [b] => Ok (map (fun a => f a b) x)
       | _, _ => Raise RuntimeError
       end.

(** The results of a list of computations, or the first exception. *)
Fixpoint sequence {A : Type} (l : list (result A)) : result (list A) :=
  match l with
  | [] => Ok []
  | r :: l' => a <- r ;; t <- sequence l' ;; Ok (a :: t)
  end.

Definition sum_list (l : list R) : R := fold_right Rplus 0 l.

(** [x.norm(2)] of a vector *)
Definition norm2 (x : list R) : R := sqrt (sum_list (map (fun v => v * v) x)).

Definition normalize_eps : R := / 10 ^ 12.

(** [F.normalize(m, dim=-1)]: each row divided by [max(norm, eps)], with the
    default [p=2] and [eps=1e-12]. *)
Definition normalize_row (x : list R) : list R :=
  map (fun v => v / Rmax (norm2 x) normalize_eps) x.

Definition F_normalize (m : matrix) : matrix := map normalize_row m.

(** [mean + noise * std[:, None]] when [std] has one entry per row. *)
Definition add_noise (mean noise : matrix) (std : list R) : matrix :=
  map (fun '(m, e, s) => map (fun '(a, b) => a + b * s) (combine m e))
      (combine (combine mean noise) std).

(** [mean + noise * std[:, None]] for [noise] in the shape [[B, L]] of [mean]
    and any vector [std]: the rows broadcast against the entries of [std]
    (one entry of [std] serves every row, one row serves every entry), and a
    [std] of another length is a [RuntimeError]. *)
Definition torch_add_noise (mean noise : matrix) (std : list R)
  : result matrix :=
  broadcast2 (fun '(m, e) s => map (fun '(a, b) => a + b * s) (combine m e))
             (combine mean noise) std.

(** [a - b], for tensors of one shape *)
Definition tensor_sub (a b : matrix) : matrix :=
  map (fun '(x, y) => map (fun '(u, v) => u - v) (combine x y)) (combine a b).

(** [a - b] with torch's broadcasting of the rows and of the columns;
    shapes that do not broadcast are a [RuntimeError]. *)
Definition torch_sub (a b : matrix) : result matrix :=
  rows <- broadcast2 (fun x y => broadcast2 Rminus x y) a b ;;
  sequence rows.

Definition tensor_abs (a : matrix) : matrix := map (map Rabs) a.

(** [a.mean()]: over all the entries; [nan] for a tensor with no entry. *)
Definition tensor_mean (a : matrix) : xreal :=
  match concat a with
  | [] => XNaN
  | l => XFin (sum_list l / INR (length l))
  end.

Definition sigmoid (x : R) : R := / (1 + exp (- x)).

(** [torch.log]: [-inf] at [0], [nan] below. *)
Definition torch_log (x : R) : xreal :=
  if Rlt_dec x 0 then XNaN
  else if Req_dec_T x 0 then XNegInf
  else XFin (ln x).

Definition clamp_min (x lo : R) : R := Rmax x lo.

(** [t[0]] and [t[-1]] *)
Definition first_entry (t : list R) : result R :=
  match t with
  | [] => Raise IndexError
  | x :: _ => Ok x
  end.

Definition last_entry (t : list R) : result R :=
  match rev t with
  | [] => Raise IndexError
  | x :: _ => Ok x
  end.

(** ** TrainingWrapper.compute_loss *)

(** The collaborators behind [self.model]; each call can raise. *)
Record Model : Type := {
  diffusion : matrix -> list Z -> result (matrix * list R);
  spkembed : tensor1 -> result matrix;
  nullspk : list R;
  denoise : matrix -> matrix -> list Z -> result matrix;
  scheduler : result (list R * list R)
}.

(** What the random generator supplies to one call, in the order of the
    draws: [torch.randint], [torch.randn_like], [torch.rand_like]. *)
Record Draws : Type := {
  draw_steps : list Z;
  draw_noise : matrix;
  draw_null : list R
}.

(** The dictionary [losses] and the dictionary of arrays of the result. *)
Record Losses : Type := { noise_estim : xreal; schedule_loss : xreal }.
Record Arrays : Type := { base : matrix; denoised : matrix; alphas_bar : list R }.

Definition clamp_floor : R := / 10 ^ 7.

(** Lines 77-79: the prior loss on the two ends of the schedule. *)
Definition schedule_prior (alphas_bar : list R) : result xreal :=
  a_last <- last_entry alphas_bar ;;
  a_first <- first_entry alphas_bar ;;
  Ok (xadd (torch_log (clamp_min (1 - a_last) clamp_floor))
           (torch_log (clamp_min a_first clamp_floor))).

(** Line 70, for [base] and [denoised] of one shape *)
Definition noise_estimation (base denoised : matrix) : xreal :=
  tensor_mean (tensor_abs (tensor_sub base denoised)).

(** Line 63: the mask of the rows that lose their speaker. *)
Definition null_mask (p : R) (u : list R) : list bool :=
  map (fun x => Rltb x p) u.

(** Lines 63-66, after the uniform sample [u] is drawn. *)
Definition guided_embedding (p : R) (emb : matrix) (null : list R)
    (u : list R) : result matrix :=
  replaced <- masked_assign emb (null_mask p u) null ;;
  Ok (F_normalize replaced).

Section ComputeLoss.
Variable config : Config.
Variable mdl : Model.

Definition compute_loss (sid : tensor1) (speeches : matrix) (rng : Draws)
  : result (xreal * Losses * Arrays) :=
  let bsize := length sid.(t_data) in
  steps <- torch_randint config.(model).(steps) bsize rng.(draw_steps) ;;
  '(base_mean, base_std) <- mdl.(diffusion) speeches steps ;;
  base <- torch_add_noise base_mean
            (torch_randn_like base_mean rng.(draw_noise)) base_std ;;
  spkembed <- mdl.(spkembed) sid ;;
  u <- torch_rand_like sid rng.(draw_null) ;;
  spkembed <- guided_embedding config.(train).(null_prob) spkembed
                mdl.(nullspk) u ;;
  denoised <- mdl.(denoise) speeches spkembed steps ;;
  diff <- torch_sub base denoised ;;
  let noise_estim := tensor_mean (tensor_abs diff) in
  '(logsnr, _) <- mdl.(scheduler) ;;
  let alphas_bar := map sigmoid logsnr in
  schedule_loss <- schedule_prior alphas_bar ;;
  let loss := xsub noise_estim schedule_loss in
  Ok (loss,
      {| noise_estim := noise_estim; schedule_loss := schedule_loss |},
      {| base := base; denoised := denoised; alphas_bar := alphas_bar |}).
End ComputeLoss.

(** ** Notions the properties are stated with *)

(** Two tensors have one shape: as many rows, and rows of equal lengths. *)
Definition same_shape (a b : matrix) : Prop :=
  Forall2 (fun r s => length r = length s) a b.

(** The absolute differences of two tensors, entry by entry, flattened. *)
Definition abs_differences (a b : matrix) : list R :=
  map (fun '(u, v) => Rabs (u - v)) (combine (concat a) (concat b)).

(** Row [e] of the embedding after line 64, for the uniform draw [u] of its
    row. *)
Definition guided_row (p : R) (null e : list R) (u : R) : list R :=
  if Rltb u p then null else e.

(** The outcomes of one uniform draw of [[0, 1)] at resolution [N]: the [N]
    equiprobable values [k / N]. *)
Definition uniform_grid (N : nat) : list R :=
  map (fun k => INR k / INR N) (seq 0 N).

(** Every row [n] cut down to its first [lengths[i] - 1] entries: the
    padding and the last valid sample removed. *)
Definition drop_tail {A : Type} (speeches : list (list A)) (lengths : list Z)
  : list (list A) :=
  map (fun '(n, l) => firstn (Z.to_nat (l - 1)) n) (combine speeches lengths).

(** [c * m], entry by entry *)
Definition tensor_scale (c : R) (m : matrix) : matrix :=
  map (map (Rmult c)) m.

(** The sum of the squares of a row, of which [norm2] is the root. *)
Definition sum_squares (x : list R) : R := sum_list (map (fun v => v * v) x).

(** The largest finite [float32], [(2 - 2^-23) * 2^127]: a sum of squares
    above it is [inf] in the code, and the row divided by it the zero row. *)
Definition float32_max : R := (2 - / 2 ^ 23) * 2 ^ 127.

(** ** Concrete inputs, used to run the definitions *)

Definition cfg_seglen (k : Z) : Config :=
  {| train := {| seglen := k; null_prob := 0 |}; model := {| steps := 1 |} |}.

Definition toy_config : Config :=
  {| train := {| seglen := 2; null_prob := / 2 |};
     model := {| steps := 10 |} |}.

Definition toy_model : Model :=
  {| diffusion := fun x _ => Ok (x, map (fun _ => 1) x);
     spkembed := fun sid => Ok (map (fun _ => [3; 4]) sid.(t_data));
     nullspk := [0; 1];
     denoise := fun x _ _ => Ok x;
     scheduler := Ok ([0; 0], []) |}.

Definition toy_speeches : matrix := [[1; 2]; [3; 4]].

Definition toy_draws : Draws :=
  {| draw_steps := [3%Z; 7%Z];
     draw_noise := [[1; -1]; [0; 2]];
     draw_null := [0; / 2] |}.

Definition toy_sid (d : dtype) : tensor1 := {| t_dtype := d; t_data := [0; 1] |}.

(** * Properties *)

Local Open Scope Z_scope.

(** ** The segment sampler *)

Lemma In_randint_support (h s : Z) :
  In s (randint_support h) <-> 0 <= s < h.
Proof.
  unfold randint_support. rewrite in_map_iff. split.
  - intros [k [<- Hk]]. apply in_seq in Hk. lia.
  - intros Hs. exists (Z.to_nat s). split; [lia|]. apply in_seq. lia.
Qed.

Lemma NoDup_randint_support (h : Z) : NoDup (randint_support h).
Proof.
  unfold randint_support. apply Injective_map_NoDup.
  - intros a b Hab. lia.
  - apply seq_NoDup.
Qed.

Lemma count_randint_support (h s : Z) :
  0 <= s < h -> count_occ Z.eq_dec (randint_support h) s = 1%nat.
Proof.
  intros Hs. apply NoDup_count_occ'.
  - apply NoDup_randint_support.
  - now apply In_randint_support.
Qed.

Lemma randint_sample_range (high sample : list Z) :
  randint_sample high sample <->
  Forall2 (fun h s => 0 <= s < h) high sample.
Proof.
  unfold randint_sample. split; intros H; induction H; constructor; auto;
    now apply In_randint_support.
Qed.

Lemma wrap64_id (z : Z) : np_long z -> wrap64 z = z.
Proof.
  unfold np_long, wrap64, int64_half, int64_modulus. intros H.
  rewrite Z.mod_small; lia.
Qed.

Lemma wrap64_range (z : Z) : np_long (wrap64 z).
Proof.
  unfold np_long, wrap64, int64_half, int64_modulus.
  pose proof (Z.mod_pos_bound (z + 9223372036854775808) 18446744073709551616).
  lia.
Qed.

Lemma randint_values_range (high raw : list Z) :
  Forall (fun h => 0 < h) high ->
  Forall2 (fun h s => 0 <= s < h) high (randint_values high raw).
Proof.
  intros H. revert raw. induction H as [|h high Hh _ IH]; intros raw; simpl;
    constructor.
  - apply Z.mod_pos_bound. assumption.
  - apply IH.
Qed.

(** A sample in range is the value drawn from it. *)
Lemma randint_values_sample (high sample : list Z) :
  Forall2 (fun h s => 0 <= s < h) high sample ->
  randint_values high sample = sample.
Proof.
  induction 1 as [|h s high sample Hs _ IH]; simpl; [reflexivity|].
  rewrite IH. f_equal. apply Z.mod_small. assumption.
Qed.

Lemma randint_empty_range (high sample : list Z) :
  Exists (fun h => h <= 0) high ->
  np_random_randint high sample = Raise ValueError.
Proof.
  intros H. unfold np_random_randint.
  replace (existsb _ high) with true; [reflexivity|].
  symmetry. apply existsb_exists. apply Exists_exists in H.
  destruct H as [h [Hin Hh]]. exists h. split; [assumption|].
  apply orb_true_iff. left. lia.
Qed.

Lemma randint_proper_range (high sample : list Z) :
  Forall (fun h => 0 < h <= int64_half) high ->
  np_random_randint high sample = Ok (randint_values high sample).
Proof.
  intros H. unfold np_random_randint.
  replace (existsb _ high) with false; [reflexivity|].
  symmetry. apply not_true_is_false. intros Hex.
  apply existsb_exists in Hex. destruct Hex as [h [Hin Hh]].
  rewrite Forall_forall in H. specialize (H h Hin).
  apply orb_true_iff in Hh. destruct Hh; lia.
Qed.

Lemma randint_ok_inv (high raw start : list Z) :
  np_random_randint high raw = Ok start ->
  Forall (fun h => 0 < h <= int64_half) high /\
  start = randint_values high raw.
Proof.
  unfold np_random_randint. destruct (existsb _ high) eqn:E; [discriminate|].
  intros H. injection H as <-. split; [|reflexivity].
  apply Forall_forall. intros h Hin.
  destruct (Z_lt_le_dec 0 h) as [Hpos|Hneg].
  - destruct (Z_le_gt_dec h int64_half) as [Hle|Hgt]; [lia|].
    assert (existsb (fun h => (h <=? 0) || (int64_half <? h)) high = true).
    { apply existsb_exists. exists h. split; [assumption|].
      apply orb_true_iff. right. lia. }
    congruence.
  - assert (existsb (fun h => (h <=? 0) || (int64_half <? h)) high = true).
    { apply existsb_exists. exists h. split; [assumption|].
      apply orb_true_iff. left. lia. }
    congruence.
Qed.

(** A row whose wrapped [lengths[i] - seglen] is not positive makes the draw
    of the offsets fail. *)
Lemma random_segment_bad_range (A : Type) (config : Config)
    (speeches : list (list A)) (lengths sample : list Z) :
  Exists (fun l => wrap64 (l - config.(train).(seglen)) <= 0) lengths ->
  random_segment config speeches lengths sample = Raise ValueError.
Proof.
  intros H. unfold random_segment.
  rewrite randint_empty_range; [reflexivity|].
  apply Exists_exists in H. destruct H as [l [Hin Hl]].
  apply Exists_exists. exists (wrap64 (l - config.(train).(seglen))).
  split; [|assumption].
  apply in_map_iff. now exists l.
Qed.

(** Inside the row, the slice of the code is the window of the spec. *)
Lemma py_slice_window (A : Type) (n : list A) (s len : Z) :
  0 <= s -> 0 <= len -> s + len <= Z.of_nat (length n) ->
  s + len < int64_half ->
  py_slice n s (s + len) = window n s len /\
  Z.of_nat (length (window n s len)) = len.
Proof.
  intros Hs Hlen Hfit Hsmall.
  unfold py_slice, window, slice_bound, array_len.
  destruct (s <? 0) eqn:E1; [lia|].
  destruct (s + len <? 0) eqn:E2; [lia|].
  rewrite !Z.min_l by lia.
  replace (s + len - s) with len by lia. split; [reflexivity|].
  rewrite length_firstn, length_skipn. lia.
Qed.

Lemma np_stack_same_length (A : Type) (rows : list (list A)) (k : nat) :
  rows <> [] -> Forall (fun r => length r = k) rows -> np_stack rows = Ok rows.
Proof.
  intros Hne Hall. destruct rows as [|r rs]; [congruence|].
  unfold np_stack. inversion Hall as [|? ? Hr Hrs]; subst.
  replace (forallb _ rs) with true; [reflexivity|].
  symmetry. apply forallb_forall. intros r' Hin.
  rewrite Forall_forall in Hrs. rewrite (Hrs r' Hin). apply Nat.eqb_refl.
Qed.

Lemma slices_are_windows (A : Type) (k : Z) (speeches : list (list A)) :
  0 <= k ->
  forall lengths sample,
  Forall np_long lengths ->
  Forall2 (fun n l => k < l <= Z.of_nat (length n)) speeches lengths ->
  Forall2 (fun h s => 0 <= s < h) (map (fun l => l - k) lengths) sample ->
  map (fun '(n, s) => py_slice n s (wrap64 (s + k))) (combine speeches sample)
  = map (fun '(n, s) => window n s k) (combine speeches sample) /\
  Forall (fun r => length r = Z.to_nat k)
         (map (fun '(n, s) => window n s k) (combine speeches sample)) /\
  Forall2 (fun s l => 0 <= s < l - k) sample lengths /\
  length (combine speeches sample) = length speeches.
Proof.
  intros Hk lengths sample Hlong Hrows. revert sample Hlong.
  induction Hrows as [|n l speeches lengths Hnl Hrows IH];
    intros sample Hlong Hs.
  - simpl in Hs. inversion Hs; subst. simpl. repeat split; constructor.
  - simpl in Hs. inversion Hs as [|h s hs sample' Hhs Hrest]; subst.
    inversion Hlong as [|? ? Hl Hlong']; subst.
    destruct (IH sample' Hlong' Hrest) as [IH1 [IH2 [IH3 IH4]]].
    destruct (py_slice_window A n s k) as [W1 W2]; try lia.
    { unfold np_long in Hl. lia. }
    assert (Hw : wrap64 (s + k) = s + k).
    { apply wrap64_id. unfold np_long in *. unfold int64_half in *. lia. }
    simpl. repeat split.
    + now rewrite Hw, W1, IH1.
    + constructor; [lia|assumption].
    + constructor; [lia|assumption].
    + now rewrite IH4.
Qed.

Lemma lengths_minus_seglen (k : Z) (lengths : list Z) :
  0 <= k ->
  Forall np_long lengths ->
  Forall (fun l => k < l) lengths ->
  map (fun l => wrap64 (l - k)) lengths = map (fun l => l - k) lengths /\
  Forall (fun h => 0 < h <= int64_half) (map (fun l => l - k) lengths).
Proof.
  intros Hk Hlong Hlt. induction Hlong as [|l lengths Hl _ IH]; simpl.
  - split; [reflexivity|constructor].
  - inversion Hlt; subst. destruct IH as [IH1 IH2]; [assumption|].
    unfold np_long, int64_half in Hl.
    rewrite wrap64_id by (unfold np_long, int64_half; lia).
    split; [now rewrite IH1|].
    constructor; [unfold int64_half; lia|assumption].
Qed.

Lemma length_randint_support (h : Z) :
  length (randint_support h) = Z.to_nat h.
Proof. unfold randint_support. now rewrite length_map, length_seq. Qed.

Lemma Forall2_In_right (A B : Type) (P : A -> B -> Prop) (xs : list A)
    (ys : list B) (y : B) :
  Forall2 P xs ys -> In y ys -> exists x, In x xs /\ P x y.
Proof.
  induction 1 as [|x y' xs ys Hxy _ IH]; intros Hin; [contradiction|].
  destruct Hin as [<-|Hin].
  - exists x. split; [now left|assumption].
  - destruct (IH Hin) as [x' [Hx' Hp]]. exists x'. split; [now right|assumption].
Qed.

(** C3: the code does not draw from the inclusive range.  For rows strictly
    longer than the segment ([seglen < lengths[i] <= len(speeches[i])], lengths
    that are [np.long] values, a batch of at least one row), whatever the
    generator supplies, [random_segment] returns the windows
    [[start[i], start[i] + seglen)] of the rows for offsets with
    [0 <= start[i] < lengths[i] - seglen]: the upper end [lengths[i] - seglen]
    of the range is never an offset, and the last window of a row is never
    returned.  Every sample of the half-open range is the offsets of some
    call. *)
Theorem random_segment_start_below_upper_end (A : Type) (config : Config)
    (speeches : list (list A)) (lengths raw : list Z) :
  0 <= config.(train).(seglen) ->
  speeches <> [] ->
  Forall np_long lengths ->
  Forall2 (fun n l => config.(train).(seglen) < l <= Z.of_nat (length n))
          speeches lengths ->
  exists start,
    Forall2 (fun s l => 0 <= s < l - config.(train).(seglen)) start lengths /\
    random_segment config speeches lengths raw
    = Ok (map (fun '(n, s) => window n s config.(train).(seglen))
              (combine speeches start)) /\
    length (combine speeches start) = length speeches /\
    (randint_sample (map (fun l => l - config.(train).(seglen)) lengths) raw ->
     start = raw).
Proof.
  intros Hk Hne Hlong Hrows.
  assert (Hlt : Forall (fun l => config.(train).(seglen) < l) lengths).
  { apply Forall_forall. intros l Hl.
    destruct (Forall2_In_right _ _ _ _ _ _ Hrows Hl) as [n [_ Hn]]. lia. }
  destruct (lengths_minus_seglen _ lengths Hk Hlong Hlt) as [Hmap Hhigh].
  set (high := map (fun l => l - config.(train).(seglen)) lengths) in *.
  assert (Hstart : Forall2 (fun h s => 0 <= s < h) high
                     (randint_values high raw)).
  { apply randint_values_range. eapply Forall_impl; [|exact Hhigh].
    simpl. intros h Hh. lia. }
  destruct (slices_are_windows A _ speeches Hk lengths _ Hlong Hrows Hstart)
    as [Hslices [Hlen [Hrange Hcount]]].
  exists (randint_values high raw).
  split; [exact Hrange|]. split; [|split; [exact Hcount|]].
  - unfold random_segment. rewrite Hmap. fold high.
    rewrite randint_proper_range by assumption. simpl. rewrite Hslices.
    apply np_stack_same_length with (k := Z.to_nat config.(train).(seglen));
      [|assumption].
    intros Hnil. apply (f_equal (@length _)) in Hnil.
    rewrite length_map, Hcount in Hnil.
    destruct speeches; [congruence|discriminate].
  - intros Hsample. apply randint_sample_range in Hsample.
    now apply randint_values_sample.
Qed.

Lemma random_segment_start_below_upper_end_witness :
  random_segment (cfg_seglen 2) [[10; 20; 30]] [3] [1] = Ok [[10; 20]].
Proof.
  destruct (random_segment_start_below_upper_end Z (cfg_seglen 2)
              [[10; 20; 30]] [3] [1])
    as (start & Hrange & Hrun & _).
  - simpl. lia.
  - discriminate.
  - repeat constructor; unfold int64_half; lia.
  - repeat constructor; simpl; lia.
  - inversion Hrange as [|s l ss ls Hs Hrest]; subst.
    inversion Hrest; subst. simpl in Hs.
    assert (s = 0) by lia. subst s. exact Hrun.
Defined.

(** C4: a row whose length is exactly [seglen] does not give [start = 0]: the
    range [[0, 0)] of its draw is empty and the call raises [ValueError]. *)
Theorem random_segment_exact_length_raises (A : Type) (config : Config)
    (speeches : list (list A)) (lengths sample : list Z) :
  In config.(train).(seglen) lengths ->
  random_segment config speeches lengths sample = Raise ValueError.
Proof.
  intros Hin. apply random_segment_bad_range.
  apply Exists_exists. exists config.(train).(seglen). split; [assumption|].
  rewrite Z.sub_diag. rewrite wrap64_id; [lia|].
  unfold np_long, int64_half. lia.
Qed.

Lemma random_segment_exact_length_raises_witness :
  random_segment (cfg_seglen 2) [[10; 20]; [30; 40]] [2; 2] [0; 0]
  = Raise ValueError.
Proof.
  apply (random_segment_exact_length_raises Z (cfg_seglen 2)
           [[10; 20]; [30; 40]] [2; 2] [0; 0]).
  simpl. auto.
Defined.

(** C9, as the code has it: when some [lengths[i] < seglen] and the [np.long]
    subtraction [lengths[i] - seglen] does not wrap around (it is at least
    [-2^63], as for every length that is not negative), [random_segment]
    raises [ValueError] at the draw of the offsets, whatever the speeches and
    whatever the generator supplies: the caller gets the exception and no
    batch. *)
Theorem random_segment_too_short_raises (A : Type) (config : Config)
    (speeches : list (list A)) (lengths sample : list Z) :
  np_long config.(train).(seglen) ->
  Exists (fun l => np_long l /\ l < config.(train).(seglen) /\
                   - int64_half <= l - config.(train).(seglen)) lengths ->
  random_segment config speeches lengths sample = Raise ValueError /\
  is_ok (random_segment config speeches lengths sample) = false.
Proof.
  intros Hk H.
  assert (E : random_segment config speeches lengths sample = Raise ValueError).
  { apply random_segment_bad_range. eapply Exists_impl; [|exact H].
    simpl. intros l (Hl & Hlt & Hwrap).
    rewrite wrap64_id; [lia|]. unfold np_long, int64_half in *. lia. }
  rewrite E. split; reflexivity.
Qed.

Lemma random_segment_too_short_raises_witness :
  random_segment (cfg_seglen 50) [[1; 2; 3]; [4; 5; 6]] [3; 2] [0; 0]
  = Raise ValueError.
Proof.
  refine (proj1 (random_segment_too_short_raises Z (cfg_seglen 50)
                   [[1; 2; 3]; [4; 5; 6]] [3; 2] [0; 0] _ _)).
  - unfold np_long, int64_half. simpl. lia.
  - constructor. unfold np_long, int64_half. simpl. lia.
Defined.

(** C9 as stated fails where the subtraction wraps around: the length
    [-2^63 + 10] is below [seglen = 50], yet [lengths - seglen] is the
    positive [2^63 - 40], the draw goes through and the call returns a
    batch (of one empty row, for the offset [2^62]). *)
Lemma random_segment_wraps_around :
  np_long (- int64_half + 10) /\
  - int64_half + 10 < 50 /\
  random_segment (cfg_seglen 50) [[1; 2; 3]] [- int64_half + 10]
    [4611686018427387904]
  = Ok [[]].
Proof.
  split; [unfold np_long, int64_half; lia|].
  split; [unfold int64_half; lia|]. vm_compute. reflexivity.
Qed.

(** ** The tensor operations of the loss assembler *)

Local Open Scope R_scope.

Lemma fill_like_same (A B : Type) (d : B) (shape : list A) (raw : list B) :
  length raw = length shape -> fill_like d shape raw = raw.
Proof.
  revert raw. induction shape as [|a shape IH]; intros [|b raw] Hlen;
    simpl in *; try discriminate; [reflexivity|].
  f_equal. apply IH. now injection Hlen.
Qed.

Lemma length_fill_like (A B : Type) (d : B) (shape : list A) (raw : list B) :
  length (fill_like d shape raw) = length shape.
Proof.
  revert raw. induction shape as [|a shape IH]; intros raw; simpl;
    [reflexivity|]. now rewrite IH.
Qed.

Lemma frac_part_unit (u : R) : 0 <= u < 1 -> frac_part u = u.
Proof.
  intros Hu. symmetry.
  apply (Int_part_frac_part_spec u 0 u Hu). simpl. lra.
Qed.

(** The uniform draw has one entry of [[0, 1)] per entry of [t], and a sample
    of [[0, 1)] in the shape of [t] is drawn as it is. *)
Lemma rand_values_draw (t : tensor1) (raw : list R) :
  rand_draw t (rand_values t raw) /\
  (rand_draw t raw -> rand_values t raw = raw).
Proof.
  unfold rand_draw, rand_values. split; [split|].
  - now rewrite length_map, length_fill_like.
  - apply Forall_forall. intros u Hin. apply in_map_iff in Hin.
    destruct Hin as [x [<- _]]. destruct (base_fp x). lra.
  - intros [Hlen Hrange]. rewrite fill_like_same by assumption.
    rewrite <- (map_id raw) at 2. apply map_ext_in. intros u Hin.
    apply frac_part_unit. rewrite Forall_forall in Hrange. now apply Hrange.
Qed.

Lemma same_shape_randn_like (m raw : matrix) :
  same_shape m (torch_randn_like m raw) /\
  (same_shape m raw -> torch_randn_like m raw = raw).
Proof.
  unfold same_shape. split.
  - revert raw. induction m as [|row m IH]; intros raw; simpl; constructor.
    + now rewrite length_fill_like.
    + apply IH.
  - induction 1 as [|row r m raw Hlen _ IH]; simpl; [reflexivity|].
    rewrite IH. f_equal. apply fill_like_same. now symmetry.
Qed.

Lemma length_same_shape (a b : matrix) :
  same_shape a b -> length a = length b.
Proof. induction 1; simpl; congruence. Qed.

(** The broadcasting operations raise nothing but [RuntimeError]. *)
Lemma broadcast2_error (A B C : Type) (f : A -> B -> C) (x : list A)
    (y : list B) (e : error) :
  broadcast2 f x y = Raise e -> e = RuntimeError.
Proof.
  unfold broadcast2. destruct (Nat.eqb (length x) (length y));
    [discriminate|].
  destruct x as [|a [|a' x]]; destruct y as [|b [|b' y]]; try discriminate;
    intros H; now injection H.
Qed.

Lemma broadcast2_same_length (A B C : Type) (f : A -> B -> C) (x : list A)
    (y : list B) :
  length x = length y ->
  broadcast2 f x y = Ok (map (fun '(a, b) => f a b) (combine x y)).
Proof.
  intros H. unfold broadcast2. rewrite H, Nat.eqb_refl. reflexivity.
Qed.

(** A [std] that has neither one entry per row nor a single entry, for a
    [mean] of more than one row, does not broadcast. *)
Lemma broadcast2_mismatch (A B C : Type) (f : A -> B -> C) (x : list A)
    (y : list B) :
  length x <> length y -> length x <> 1%nat -> length y <> 1%nat ->
  broadcast2 f x y = Raise RuntimeError.
Proof.
  intros Hxy Hx Hy. unfold broadcast2.
  replace (Nat.eqb (length x) (length y)) with false
    by (symmetry; now apply Nat.eqb_neq).
  destruct x as [|a [|a' x]]; destruct y as [|b [|b' y]]; simpl in *;
    try reflexivity; congruence.
Qed.

Lemma torch_add_noise_same (mean noise : matrix) (std : list R) :
  same_shape mean noise ->
  length std = length mean ->
  torch_add_noise mean noise std = Ok (add_noise mean noise std).
Proof.
  intros Hs Hlen. unfold torch_add_noise, add_noise.
  rewrite broadcast2_same_length.
  - apply (f_equal Ok). apply map_ext. now intros [[m e] s].
  - rewrite length_combine, <- (length_same_shape _ _ Hs), Nat.min_id.
    now symmetry.
Qed.

Lemma sequence_oks (A : Type) (l : list A) :
  sequence (map Ok l) = Ok l.
Proof. induction l as [|a l IH]; simpl; [reflexivity|now rewrite IH]. Qed.

Lemma torch_sub_same (a b : matrix) :
  same_shape a b -> torch_sub a b = Ok (tensor_sub a b).
Proof.
  intros Hs. unfold torch_sub, tensor_sub.
  rewrite broadcast2_same_length by now apply length_same_shape.
  cbn [bind].
  induction Hs as [|x y a b Hxy _ IH]; [reflexivity|].
  cbn [combine map sequence].
  rewrite (broadcast2_same_length _ _ _ Rminus x y Hxy). cbn [bind].
  rewrite IH. reflexivity.
Qed.

Lemma sequence_error (A : Type) (l : list (result A)) (e : error) :
  sequence l = Raise e -> In (Raise e) l.
Proof.
  induction l as [|r l IH]; simpl; [discriminate|].
  destruct r as [a|e']; simpl.
  - destruct (sequence l) as [t|e'']; simpl; [discriminate|].
    intros H. injection H as <-. right. now apply IH.
  - intros H. injection H as <-. now left.
Qed.

Lemma broadcast2_values (A B C : Type) (f : A -> B -> C) (x : list A)
    (y : list B) (r : list C) :
  broadcast2 f x y = Ok r -> forall c, In c r -> exists a b, c = f a b.
Proof.
  unfold broadcast2. destruct (Nat.eqb (length x) (length y)).
  - intros E. injection E as <-. intros c Hc.
    apply in_map_iff in Hc. destruct Hc as [[a b] [<- _]]. now exists a, b.
  - destruct x as [|a [|a' x]]; destruct y as [|b [|b' y]];
      try discriminate; intros E; injection E as <-; intros c Hc;
      simpl in Hc;
      repeat match goal with
             | H : False |- _ => contradiction
             | H : _ \/ _ |- _ => destruct H as [<-|H]
             | H : In _ (map _ _) |- _ =>
                 apply in_map_iff in H; destruct H as [? [<- _]]
             end; eauto.
Qed.

Lemma torch_sub_error (a b : matrix) (e : error) :
  torch_sub a b = Raise e -> e = RuntimeError.
Proof.
  unfold torch_sub.
  destruct (broadcast2 _ a b) as [rows|e'] eqn:E; simpl.
  - intros H. apply sequence_error in H.
    destruct (broadcast2_values _ _ _ _ _ _ _ E _ H) as (x & y & Hr).
    symmetry in Hr. now apply broadcast2_error in Hr.
  - intros H. injection H as <-. now apply broadcast2_error in E.
Qed.

(** ** The loss assembler: the calls that return *)

(** [compute_loss] returns a result exactly when each of its steps goes
    through, and the result is made of what the steps gave. *)
Lemma compute_loss_ok (config : Config) (mdl : Model) (sid : tensor1)
    (speeches : matrix) (rng : Draws) (loss : xreal) (losses : Losses)
    (arrays : Arrays) :
  compute_loss config mdl sid speeches rng = Ok (loss, losses, arrays) <->
  exists bm bs emb cond diff logsnr aux sl,
    (0 < config.(model).(steps))%Z /\
    mdl.(diffusion) speeches rng.(draw_steps) = Ok (bm, bs) /\
    torch_add_noise bm (torch_randn_like bm rng.(draw_noise)) bs
    = Ok arrays.(base) /\
    mdl.(spkembed) sid = Ok emb /\
    is_floating_point sid.(t_dtype) = true /\
    guided_embedding config.(train).(null_prob) emb mdl.(nullspk)
      (rand_values sid rng.(draw_null)) = Ok cond /\
    mdl.(denoise) speeches cond rng.(draw_steps) = Ok arrays.(denoised) /\
    torch_sub arrays.(base) arrays.(denoised) = Ok diff /\
    mdl.(scheduler) = Ok (logsnr, aux) /\
    schedule_prior (map sigmoid logsnr) = Ok sl /\
    arrays.(alphas_bar) = map sigmoid logsnr /\
    losses = {| noise_estim := tensor_mean (tensor_abs diff);
                schedule_loss := sl |} /\
    loss = xsub (tensor_mean (tensor_abs diff)) sl.
Proof.
  unfold compute_loss, torch_randint, torch_rand_like. split.
  - destruct (config.(model).(steps) <=? 0)%Z eqn:Hsteps; [discriminate|].
    cbn [bind].
    destruct (mdl.(diffusion) speeches rng.(draw_steps)) as [[bm bs]|] eqn:Hd;
      [|discriminate].
    cbn [bind].
    destruct (torch_add_noise bm _ bs) as [b|] eqn:Hb; [|discriminate].
    cbn [bind].
    destruct (mdl.(spkembed) sid) as [emb|] eqn:He; [|discriminate].
    cbn [bind].
    destruct (is_floating_point sid.(t_dtype)) eqn:Hf; [|discriminate].
    cbn [bind].
    destruct (guided_embedding _ emb _ _) as [cond|] eqn:Hg; [|discriminate].
    cbn [bind].
    destruct (mdl.(denoise) speeches cond rng.(draw_steps)) as [den|] eqn:Hden;
      [|discriminate].
    cbn [bind].
    destruct (torch_sub b den) as [diff|] eqn:Hdiff; [|discriminate].
    cbn [bind].
    destruct mdl.(scheduler) as [[logsnr aux]|] eqn:Hs; [|discriminate].
    cbn [bind].
    destruct (schedule_prior (map sigmoid logsnr)) as [sl|] eqn:Hp;
      [|discriminate].
    cbn [bind]. intros H. injection H as <- <- <-.
    exists bm, bs, emb, cond, diff, logsnr, aux, sl. cbn [base denoised alphas_bar].
    repeat split; try assumption; try reflexivity.
    apply Z.leb_gt in Hsteps. exact Hsteps.
  - intros (bm & bs & emb & cond & diff & logsnr & aux & sl & H).
    destruct H as (Hsteps & Hd & Hb & He & Hf & Hg & Hden & Hdiff & Hs & Hp
                   & Hab & -> & ->).
    destruct arrays as [b den ab]. cbn [base denoised alphas_bar] in *.
    subst ab. apply Z.leb_gt in Hsteps. rewrite Hsteps. cbn [bind].
    rewrite Hd. cbn [bind]. rewrite Hb. cbn [bind]. rewrite He. cbn [bind].
    rewrite Hf. cbn [bind]. rewrite Hg. cbn [bind]. rewrite Hden. cbn [bind].
    rewrite Hdiff. cbn [bind]. rewrite Hs. cbn [bind]. rewrite Hp.
    reflexivity.
Qed.

(** C10: for a speaker-id tensor of an integer dtype (the documented
    [torch.long]), whatever [null_prob] and the other inputs are,
    [compute_loss] returns no loss; and once the timestep draw, the diffusion
    kernel and the embedding lookup have gone through, the exception is the
    [RuntimeError] of [torch.rand_like(sid)]. *)
Theorem compute_loss_integer_sid_raises (config : Config) (mdl : Model)
    (sid : tensor1) (speeches : matrix) (rng : Draws) :
  is_floating_point sid.(t_dtype) = false ->
  is_ok (compute_loss config mdl sid speeches rng) = false /\
  (forall bm bs emb,
     (0 < config.(model).(steps))%Z ->
     mdl.(diffusion) speeches rng.(draw_steps) = Ok (bm, bs) ->
     mdl.(spkembed) sid = Ok emb ->
     compute_loss config mdl sid speeches rng = Raise RuntimeError).
Proof.
  intros Hint. split.
  - destruct (compute_loss config mdl sid speeches rng) as [[[l ls] a]|e] eqn:E;
      [|reflexivity].
    apply compute_loss_ok in E.
    destruct E as (bm & bs & emb & cond & diff & logsnr & aux & sl & E).
    destruct E as (_ & _ & _ & _ & Hf & _). congruence.
  - intros bm bs emb Hsteps Hd He.
    unfold compute_loss, torch_randint, torch_rand_like.
    apply Z.leb_gt in Hsteps. rewrite Hsteps. cbn [bind].
    rewrite Hd. cbn [bind].
    destruct (torch_add_noise bm _ bs) as [b|e] eqn:Hb; cbn [bind].
    + rewrite He. cbn [bind]. rewrite Hint. reflexivity.
    + unfold torch_add_noise in Hb. apply broadcast2_error in Hb.
      now subst e.
Qed.

Lemma compute_loss_integer_sid_raises_witness :
  compute_loss toy_config toy_model (toy_sid torch_long) toy_speeches toy_draws
  = Raise RuntimeError.
Proof.
  refine (proj2 (compute_loss_integer_sid_raises toy_config toy_model
                   (toy_sid torch_long) toy_speeches toy_draws _)
                toy_speeches [1; 1] [[3; 4]; [3; 4]] _ _ _).
  - reflexivity.
  - reflexivity.
  - reflexivity.
  - reflexivity.
Defined.

Lemma toy_call_returns :
  exists loss losses arrays,
    compute_loss toy_config toy_model (toy_sid torch_float32) toy_speeches
      toy_draws = Ok (loss, losses, arrays).
Proof. do 3 eexists. reflexivity. Qed.

(** ** The prior loss on the ends of the schedule *)

Lemma clamp_floor_pos : 0 < clamp_floor.
Proof. unfold clamp_floor. apply Rinv_0_lt_compat. apply pow_lt. lra. Qed.

Lemma clamp_floor_le_1 : clamp_floor <= 1.
Proof.
  unfold clamp_floor. rewrite <- Rinv_1.
  apply Rinv_le_contravar; [lra|]. apply pow_R1_Rle. lra.
Qed.

Lemma torch_log_positive (x : R) : 0 < x -> torch_log x = XFin (ln x).
Proof.
  intros Hx. unfold torch_log.
  destruct (Rlt_dec x 0) as [Hneg|_]; [lra|].
  destruct (Req_dec_T x 0) as [Hz|_]; [lra|reflexivity].
Qed.

Lemma torch_log_zero : torch_log 0 = XNegInf.
Proof.
  unfold torch_log.
  destruct (Rlt_dec 0 0) as [Hneg|_]; [lra|].
  destruct (Req_dec_T 0 0) as [_|Hz]; [reflexivity|lra].
Qed.

Lemma torch_log_clamped (x : R) :
  torch_log (clamp_min x clamp_floor) = XFin (ln (Rmax x clamp_floor)).
Proof.
  apply torch_log_positive. unfold clamp_min.
  pose proof clamp_floor_pos. pose proof (Rmax_r x clamp_floor). lra.
Qed.

Lemma ln_le_compat (x y : R) : 0 < x -> x <= y -> ln x <= ln y.
Proof.
  intros Hx [Hlt | ->]; [|lra]. left. now apply ln_increasing.
Qed.

(** The logarithm of a clamped probability lies in [[ln 1e-7, 0]]. *)
Lemma ln_clamped_bounds (x : R) :
  x <= 1 -> ln clamp_floor <= ln (Rmax x clamp_floor) <= 0.
Proof.
  intros Hx. pose proof clamp_floor_pos. pose proof clamp_floor_le_1.
  split.
  - apply ln_le_compat; [assumption|apply Rmax_r].
  - rewrite <- ln_1. apply ln_le_compat.
    + pose proof (Rmax_r x clamp_floor). lra.
    + apply Rmax_lub; assumption.
Qed.

Lemma last_entry_nonempty (t : list R) :
  t <> [] -> last_entry t = Ok (last t 0).
Proof.
  intros Hne. destruct (exists_last Hne) as [l [x ->]].
  unfold last_entry. rewrite rev_unit, last_last. reflexivity.
Qed.

Lemma first_entry_nonempty (t : list R) :
  t <> [] -> first_entry t = Ok (hd 0 t).
Proof. destruct t; [congruence|reflexivity]. Qed.

Lemma schedule_prior_value (t : list R) :
  t <> [] ->
  schedule_prior t
  = Ok (XFin (ln (Rmax (1 - last t 0) clamp_floor)
              + ln (Rmax (hd 0 t) clamp_floor))).
Proof.
  intros Hne. unfold schedule_prior.
  rewrite last_entry_nonempty, first_entry_nonempty by assumption.
  simpl. now rewrite !torch_log_clamped.
Qed.

Lemma schedule_prior_empty : schedule_prior [] = Raise IndexError.
Proof. reflexivity. Qed.

(** C2: in a call that returns, the schedule collaborator gave a non-empty
    [logsnr] (it takes no argument: the same vector for every batch),
    [alphas_bar] is [sigmoid(logsnr)] entry by entry, and the prior loss is
    [log(clamp_min(1 - alphas_bar[-1], 1e-7)) + log(clamp_min(alphas_bar[0],
    1e-7))], a finite number; two calls on one model, whatever their batches
    and draws, report the same prior loss. *)
Theorem compute_loss_schedule_prior (config : Config) (mdl : Model)
    (sid : tensor1) (speeches : matrix) (rng : Draws) (loss : xreal)
    (losses : Losses) (arrays : Arrays) :
  compute_loss config mdl sid speeches rng = Ok (loss, losses, arrays) ->
  (exists logsnr aux,
     mdl.(scheduler) = Ok (logsnr, aux) /\
     logsnr <> [] /\
     arrays.(alphas_bar) = map sigmoid logsnr /\
     losses.(schedule_loss)
     = xadd (torch_log (clamp_min (1 - last arrays.(alphas_bar) 0) clamp_floor))
            (torch_log (clamp_min (hd 0 arrays.(alphas_bar)) clamp_floor)) /\
     losses.(schedule_loss)
     = XFin (ln (Rmax (1 - sigmoid (last logsnr 0)) (/ 10 ^ 7))
             + ln (Rmax (sigmoid (hd 0 logsnr)) (/ 10 ^ 7)))) /\
  (forall config' sid' speeches' rng' loss' losses' arrays',
     compute_loss config' mdl sid' speeches' rng' = Ok (loss', losses', arrays') ->
     losses'.(schedule_loss) = losses.(schedule_loss)).
Proof.
  intros H. apply compute_loss_ok in H.
  destruct H as (bm & bs & emb & cond & diff & logsnr & aux & sl & H).
  destruct H as (_ & _ & _ & _ & _ & _ & _ & _ & Hs & Hp & Hab & -> & _).
  rewrite Hab.
  assert (Hne : logsnr <> []).
  { intros ->. simpl in Hp. discriminate. }
  assert (Hne' : map sigmoid logsnr <> []).
  { destruct logsnr; [congruence|discriminate]. }
  rewrite schedule_prior_value in Hp by assumption.
  injection Hp as <-. split.
  - exists logsnr, aux. simpl. repeat split; try assumption.
    + now rewrite !torch_log_clamped.
    + fold clamp_floor.
      assert (Hlast : last (map sigmoid logsnr) 0 = sigmoid (last logsnr 0)).
      { destruct (exists_last Hne) as [l [x ->]].
        rewrite map_app. simpl. now rewrite !last_last. }
      assert (Hhd : hd 0 (map sigmoid logsnr) = sigmoid (hd 0 logsnr)).
      { destruct logsnr; [congruence|reflexivity]. }
      now rewrite Hlast, Hhd.
  - intros config' sid' speeches' rng' loss' losses' arrays' H'.
    apply compute_loss_ok in H'.
    destruct H' as (bm' & bs' & emb' & cond' & diff' & logsnr' & aux' & sl'
                    & H').
    destruct H' as (_ & _ & _ & _ & _ & _ & _ & _ & Hs' & Hp' & _ & -> & _).
    rewrite Hs in Hs'. injection Hs' as <- <-.
    rewrite schedule_prior_value in Hp' by assumption.
    injection Hp' as <-. reflexivity.
Qed.

Lemma compute_loss_schedule_prior_witness :
  exists loss losses arrays,
    compute_loss toy_config toy_model (toy_sid torch_float32) toy_speeches
      toy_draws = Ok (loss, losses, arrays) /\
    losses.(schedule_loss)
    = XFin (ln (Rmax (1 - sigmoid 0) (/ 10 ^ 7))
            + ln (Rmax (sigmoid 0) (/ 10 ^ 7))).
Proof.
  do 3 eexists. split; [reflexivity|].
  destruct (compute_loss_schedule_prior toy_config toy_model
              (toy_sid torch_float32) toy_speeches toy_draws _ _ _ eq_refl)
    as [(logsnr & aux & Hs & _ & _ & _ & Hv) _].
  simpl in Hs. injection Hs as <- <-. exact Hv.
Defined.

Lemma hd_last_in (t : list R) :
  t <> [] -> In (hd 0 t) t /\ In (last t 0) t.
Proof.
  intros Hne. split.
  - destruct t; [congruence|now left].
  - destruct (exists_last Hne) as [l [x ->]]. rewrite last_last.
    apply in_or_app. right. now left.
Qed.

(** C7: for a non-empty [alphas_bar] with entries in [[0, 1]] the prior loss
    is computed and is a finite number, between [2 * log(1e-7)] and [0]; at the
    degenerate ends [alphas_bar[0] = 0] and [alphas_bar[-1] = 1] it is
    [2 * log(1e-7)], where the logarithms without the clamp would be [-inf]. *)
Theorem schedule_prior_finite (ab : list R) :
  ab <> [] ->
  Forall (fun a => 0 <= a <= 1) ab ->
  exists v,
    schedule_prior ab = Ok (XFin v) /\
    is_finite (XFin v) = true /\
    2 * ln clamp_floor <= v <= 0 /\
    (hd 0 ab = 0 -> last ab 0 = 1 ->
       v = 2 * ln clamp_floor /\
       torch_log (1 - last ab 0) = XNegInf /\
       torch_log (hd 0 ab) = XNegInf).
Proof.
  intros Hne Hall.
  destruct (hd_last_in ab Hne) as [Hhd Hlast].
  rewrite Forall_forall in Hall.
  pose proof (Hall _ Hhd) as Bhd. pose proof (Hall _ Hlast) as Blast.
  eexists. split; [apply schedule_prior_value; assumption|].
  split; [reflexivity|]. split.
  - pose proof (ln_clamped_bounds (1 - last ab 0)).
    pose proof (ln_clamped_bounds (hd 0 ab)). lra.
  - intros -> ->. replace (1 - 1) with 0 by lra.
    pose proof clamp_floor_pos.
    rewrite Rmax_right by lra.
    split; [lra|]. split; apply torch_log_zero.
Qed.

Lemma schedule_prior_finite_witness :
  exists v, schedule_prior [0; / 2; 1] = Ok (XFin v) /\ v = 2 * ln clamp_floor.
Proof.
  destruct (schedule_prior_finite [0; / 2; 1]) as (v & Hv & _ & _ & Hdeg).
  - discriminate.
  - repeat constructor; lra.
  - exists v. split; [exact Hv|]. apply Hdeg; reflexivity.
Defined.

(** ** The noise-estimation loss *)

Lemma combine_app_same (A B : Type) (a a' : list A) (b b' : list B) :
  length a = length b ->
  combine (a ++ a') (b ++ b') = combine a b ++ combine a' b'.
Proof.
  revert b. induction a as [|x a IH]; intros [|y b] Hlen; simpl in *;
    try discriminate; [reflexivity|].
  f_equal. apply IH. now injection Hlen.
Qed.

Lemma flatten_abs_sub (a b : matrix) :
  same_shape a b ->
  concat (tensor_abs (tensor_sub a b)) = abs_differences a b /\
  length (abs_differences a b) = length (concat a).
Proof.
  unfold abs_differences, tensor_abs, tensor_sub.
  induction 1 as [|r s a b Hrs Hab [IH1 IH2]]; [split; reflexivity|].
  simpl. rewrite combine_app_same by assumption.
  rewrite map_app, IH1. split.
  - f_equal. rewrite map_map. apply map_ext. now intros [u v].
  - rewrite !length_app, IH2. f_equal.
    rewrite length_map, length_combine. rewrite <- Hrs. apply Nat.min_id.
Qed.

Lemma sum_list_nonneg (l : list R) :
  Forall (fun x => 0 <= x) l -> 0 <= sum_list l.
Proof.
  induction 1 as [|x l Hx _ IH]; simpl; [lra|lra].
Qed.

Lemma sum_list_zero (l : list R) :
  Forall (fun x => x = 0) l -> sum_list l = 0.
Proof.
  induction 1 as [|x l Hx _ IH]; simpl; [reflexivity|lra].
Qed.

Lemma abs_differences_nonneg (a b : matrix) :
  Forall (fun x => 0 <= x) (abs_differences a b).
Proof.
  unfold abs_differences. apply Forall_forall. intros x Hin.
  apply in_map_iff in Hin. destruct Hin as [[u v] [<- _]]. apply Rabs_pos.
Qed.

Lemma abs_differences_self (a : matrix) :
  Forall (fun x => x = 0) (abs_differences a a).
Proof.
  unfold abs_differences. apply Forall_forall. intros x Hin.
  apply in_map_iff in Hin. destruct Hin as [[u v] [<- Hin]].
  assert (u = v) as ->.
  { revert Hin. generalize (concat a). intros l.
    induction l as [|y l IH]; simpl; [contradiction|].
    intros [Heq|Hin]; [now injection Heq as <- <-|auto]. }
  replace (v - v) with 0 by lra. apply Rabs_R0.
Qed.

(** The mean of line 70 is the sum of the absolute differences over the count
    of entries, when there is an entry; [nan] when there is none. *)
Lemma noise_estimation_value (a b : matrix) :
  same_shape a b ->
  noise_estimation a b
  = match concat a with
    | [] => XNaN
    | _ => XFin (sum_list (abs_differences a b) / INR (length (concat a)))
    end.
Proof.
  intros Hs. destruct (flatten_abs_sub a b Hs) as [Hflat Hlen].
  unfold noise_estimation, tensor_mean. rewrite Hflat.
  destruct (abs_differences a b) as [|x l] eqn:E.
  - simpl in Hlen. destruct (concat a); [reflexivity|discriminate].
  - rewrite <- Hlen. destruct (concat a); [discriminate|reflexivity].
Qed.

Lemma noise_estimation_mean (a b : matrix) :
  same_shape a b ->
  concat a <> [] ->
  noise_estimation a b
  = XFin (sum_list (abs_differences a b) / INR (length (concat a))).
Proof.
  intros Hs Hne. rewrite noise_estimation_value by assumption.
  destruct (concat a); [congruence|reflexivity].
Qed.

Lemma same_shape_refl (a : matrix) : same_shape a a.
Proof. induction a; constructor; auto. Qed.

(** C8, as the code has it: for [base] and [denoised] of one shape with at
    least one entry, the noise-estimation loss is a number, it is
    non-negative, and it is [0] when [denoised] equals [base]. *)
Theorem noise_estimation_nonneg (b d : matrix) :
  same_shape b d ->
  concat b <> [] ->
  exists v,
    noise_estimation b d = XFin v /\
    v = sum_list (abs_differences b d) / INR (length (concat b)) /\
    0 <= v /\
    (d = b -> v = 0).
Proof.
  intros Hs Hne. eexists. split; [|split; [reflexivity|]].
  - now apply noise_estimation_mean.
  - assert (Hn : 0 < INR (length (concat b))).
    { destruct (concat b); [congruence|]. apply lt_0_INR. simpl. lia. }
    split.
    + unfold Rdiv. apply Rmult_le_pos.
      * apply sum_list_nonneg, abs_differences_nonneg.
      * left. now apply Rinv_0_lt_compat.
    + intros ->. rewrite sum_list_zero by apply abs_differences_self.
      unfold Rdiv. apply Rmult_0_l.
Qed.

Lemma noise_estimation_nonneg_witness :
  exists v, noise_estimation [[1; 2]; [3; 4]] [[1; 2]; [3; 4]] = XFin v /\ v = 0.
Proof.
  destruct (noise_estimation_nonneg [[1; 2]; [3; 4]] [[1; 2]; [3; 4]])
    as (v & Hv & _ & _ & Hz).
  - repeat constructor.
  - discriminate.
  - exists v. split; [exact Hv|]. now apply Hz.
Defined.

(** C8 as stated fails on a batch with no entry: the mean over no element is
    [nan], which is neither non-negative nor [0]. *)
Lemma noise_estimation_empty_batch :
  same_shape [] [] /\
  noise_estimation [] [] = XNaN /\
  ~ (exists v, noise_estimation [] [] = XFin v /\ 0 <= v).
Proof.
  split; [constructor|]. split; [reflexivity|].
  intros [v [Hv _]]. discriminate.
Qed.

(** ** The combined loss *)




(** ** Guidance dropout and normalisation *)

Lemma sum_squares_scale (c : R) (x : list R) :
  c <> 0 ->
  sum_list (map (fun v => v * v) (map (fun v => v / c) x))
  = sum_list (map (fun v => v * v) x) / (c * c).
Proof.
  intros Hc. induction x as [|v x IH]; simpl.
  - unfold Rdiv. now rewrite Rmult_0_l.
  - rewrite IH. field. assumption.
Qed.

Lemma norm2_scale (c : R) (x : list R) :
  0 < c -> norm2 (map (fun v => v / c) x) = norm2 x / c.
Proof.
  intros Hc. unfold norm2. rewrite sum_squares_scale by lra.
  rewrite sqrt_div_alt by nra. rewrite sqrt_square by lra. reflexivity.
Qed.

Lemma normalize_eps_pos : 0 < normalize_eps.
Proof. unfold normalize_eps. apply Rinv_0_lt_compat. apply pow_lt. lra. Qed.

Lemma norm2_normalize_row (x : list R) :
  norm2 (normalize_row x) = norm2 x / Rmax (norm2 x) normalize_eps.
Proof.
  unfold normalize_row. apply norm2_scale.
  pose proof normalize_eps_pos. pose proof (Rmax_r (norm2 x) normalize_eps).
  lra.
Qed.

Lemma normalize_row_unit (x : list R) :
  normalize_eps <= norm2 x -> norm2 (normalize_row x) = 1.
Proof.
  intros Hx. rewrite norm2_normalize_row. rewrite Rmax_left by assumption.
  pose proof normalize_eps_pos. field. lra.
Qed.

Lemma normalize_row_small (x : list R) :
  norm2 x < normalize_eps ->
  norm2 (normalize_row x) = norm2 x / normalize_eps /\
  norm2 (normalize_row x) < 1.
Proof.
  intros Hx. rewrite norm2_normalize_row. rewrite Rmax_right by lra.
  split; [reflexivity|]. pose proof normalize_eps_pos.
  apply Rmult_lt_reg_r with normalize_eps; [assumption|].
  unfold Rdiv. rewrite Rmult_assoc, Rinv_l by lra. lra.
Qed.

Lemma combine_map_right (A B C : Type) (f : B -> C) (a : list A)
    (b : list B) :
  combine a (map f b) = map (fun '(x, y) => (x, f y)) (combine a b).
Proof.
  revert b. induction a as [|x a IH]; intros [|y b]; simpl; try reflexivity.
  now rewrite IH.
Qed.

(** Lines 63-66 go through exactly when the mask has one entry per row and
    the null embedding broadcasts to the rows, and then every row is the
    normalised [guided_row] for the broadcast null embedding. *)
Lemma guided_embedding_value (p : R) (emb : matrix) (null u : list R)
    (cond : matrix) :
  guided_embedding p emb null u = Ok cond <->
  length u = length emb /\
  value_fits null emb = true /\
  cond = map (fun '(e, x) =>
                normalize_row
                  (guided_row p (broadcast_row null (width emb)) e x))
             (combine emb u).
Proof.
  unfold guided_embedding, masked_assign, null_mask. rewrite length_map.
  destruct (Nat.eqb (length u) (length emb)) eqn:E; cbn [negb].
  - apply Nat.eqb_eq in E. destruct (value_fits null emb); cbn [bind].
    + unfold F_normalize. rewrite combine_map_right, !map_map.
      assert (Hm : map (fun x : list R * R =>
                          normalize_row
                            (let '(e, b) := let '(x0, y) := x in
                               (x0, Rltb y p) in
                             if b then broadcast_row null (width emb) else e))
                       (combine emb u)
                   = map (fun '(e, x) =>
                            normalize_row
                              (guided_row p (broadcast_row null (width emb))
                                 e x))
                         (combine emb u)).
      { apply map_ext. now intros [e x]. }
      rewrite Hm. split.
      * intros H. injection H as <-. now repeat split.
      * intros (_ & _ & ->). reflexivity.
    + split; [discriminate|]. intros (_ & H & _). discriminate.
  - apply Nat.eqb_neq in E. cbn [bind]. split; [discriminate|].
    intros [H _]. contradiction.
Qed.

(** A mask of another length than the embedding has rows is an
    [IndexError]. *)
Lemma guided_embedding_mask_mismatch (p : R) (emb : matrix)
    (null u : list R) :
  length u <> length emb ->
  guided_embedding p emb null u = Raise IndexError.
Proof.
  intros H. unfold guided_embedding, masked_assign, null_mask.
  rewrite length_map.
  replace (Nat.eqb (length u) (length emb)) with false; [reflexivity|].
  symmetry. now apply Nat.eqb_neq.
Qed.

Lemma broadcast_row_same (row : list R) (E : nat) :
  length row = E -> broadcast_row row E = row.
Proof. intros <-. unfold broadcast_row. now rewrite Nat.eqb_refl. Qed.

Lemma count_occ_map_true (A : Type) (f : A -> bool) (l : list A) :
  count_occ Bool.bool_dec (map f l) true = length (filter f l).
Proof.
  induction l as [|a l IH]; simpl; [reflexivity|].
  destruct (f a); simpl.
  - destruct (Bool.bool_dec true true); [now rewrite IH|congruence].
  - destruct (Bool.bool_dec false true); [discriminate|exact IH].
Qed.

Lemma Forall2_map_right (A B : Type) (P : A -> B -> Prop) (f : A -> B)
    (l : list A) :
  (forall a, In a l -> P a (f a)) -> Forall2 P l (map f l).
Proof.
  induction l as [|a l IH]; intros H; simpl; constructor.
  - apply H. now left.
  - apply IH. intros a' Ha'. apply H. now right.
Qed.

Lemma map_combine_left (A B C : Type) (f : A * B -> C) (g : A -> C)
    (a : list A) (b : list B) :
  length b = length a ->
  (forall x y, In y b -> f (x, y) = g x) ->
  map f (combine a b) = map g a.
Proof.
  revert b. induction a as [|x a IH]; intros [|y b] Hlen Hf; simpl in *;
    try discriminate; [reflexivity|].
  rewrite Hf by now left. f_equal. apply IH; [now injection Hlen|].
  intros x' y' Hy'. apply Hf. now right.
Qed.

Lemma Rltb_true (x y : R) : x < y -> Rltb x y = true.
Proof. intros H. unfold Rltb. destruct (Rlt_dec x y); [reflexivity|lra]. Qed.

Lemma Rltb_false (x y : R) : ~ x < y -> Rltb x y = false.
Proof.
  intros H. unfold Rltb. destruct (Rlt_dec x y); [contradiction|reflexivity].
Qed.

Lemma Rltb_grid (N k m : nat) :
  (0 < N)%nat -> Rltb (INR k / INR N) (INR m / INR N) = (k <? m)%nat.
Proof.
  intros HN. assert (HN' : 0 < INR N) by now apply lt_0_INR.
  assert (Hinv : 0 < / INR N) by now apply Rinv_0_lt_compat.
  destruct (Nat.ltb_spec k m) as [Hlt|Hge].
  - apply Rltb_true. apply lt_INR in Hlt. unfold Rdiv. nra.
  - apply Rltb_false. apply le_INR in Hge. unfold Rdiv. nra.
Qed.

Lemma count_below (m N : nat) :
  length (filter (fun k => (k <? m)%nat) (seq 0 N)) = Nat.min m N.
Proof.
  induction N as [|N IH]; [now rewrite Nat.min_0_r|].
  rewrite seq_S, filter_app, length_app, IH. simpl.
  destruct (Nat.ltb_spec N m); simpl; lia.
Qed.

Lemma length_filter_map (A B : Type) (f : B -> bool) (g : A -> B)
    (l : list A) :
  length (filter f (map g l)) = length (filter (fun a => f (g a)) l).
Proof.
  induction l as [|a l IH]; simpl; [reflexivity|].
  destruct (f (g a)); simpl; now rewrite IH.
Qed.

(** Of the [N] equiprobable outcomes of a uniform draw, exactly [m] lie below
    [m / N]. *)
Lemma uniform_grid_below (N m : nat) :
  (0 < N)%nat -> (m <= N)%nat ->
  length (filter (fun u => Rltb u (INR m / INR N)) (uniform_grid N)) = m.
Proof.
  intros HN Hm. unfold uniform_grid. rewrite length_filter_map.
  rewrite (filter_ext _ (fun k => (k <? m)%nat)).
  - rewrite count_below. lia.
  - intros k. now apply Rltb_grid.
Qed.

(** Every pattern of replaced and kept rows is the mask of some draw. *)
Lemma null_mask_any_pattern (p : R) (want : list bool) :
  0 < p < 1 ->
  exists u,
    Forall (fun x => 0 <= x < 1) u /\ length u = length want /\
    null_mask p u = want.
Proof.
  intros Hp. exists (map (fun b : bool => if b then 0 else p) want).
  split; [|split].
  - apply Forall_forall. intros x Hin. apply in_map_iff in Hin.
    destruct Hin as [b [<- _]]. destruct b; lra.
  - apply length_map.
  - unfold null_mask. rewrite map_map. rewrite <- (map_id want) at 2.
    apply map_ext. intros [|]; [apply Rltb_true|apply Rltb_false]; lra.
Qed.

Lemma norm2_zero_row : norm2 [0; 0] = 0.
Proof.
  unfold norm2. simpl. replace (0 * 0 + (0 * 0 + 0)) with 0 by lra.
  apply sqrt_0.
Qed.

(** C5, as the code has it.  In a call that returns, the embedding given to
    the denoiser has one row per row of the lookup; each row is the normalised
    [guided_row] (the null embedding broadcast to the width of the lookup, or
    the looked-up row, as its draw decides), whatever [null_prob] is.  A row
    whose norm before normalisation is at least the [eps = 1e-12] of
    [F.normalize], and whose sum of squares does not overflow [float32], has
    norm [1]; a row of smaller norm (a zero row, say) is divided by [eps] and
    keeps a norm below [1]. *)
Theorem conditioning_rows_unit_norm (config : Config) (mdl : Model)
    (sid : tensor1) (speeches : matrix) (rng : Draws) (loss : xreal)
    (losses : Losses) (arrays : Arrays) :
  compute_loss config mdl sid speeches rng = Ok (loss, losses, arrays) ->
  exists emb cond,
    mdl.(spkembed) sid = Ok emb /\
    mdl.(denoise) speeches cond rng.(draw_steps) = Ok arrays.(denoised) /\
    length cond = length emb /\
    value_fits mdl.(nullspk) emb = true /\
    Forall2
      (fun eu row =>
         row = normalize_row
                 (guided_row config.(train).(null_prob)
                    (broadcast_row mdl.(nullspk) (width emb))
                    (fst eu) (snd eu)) /\
         (normalize_eps
          <= norm2 (guided_row config.(train).(null_prob)
                      (broadcast_row mdl.(nullspk) (width emb))
                      (fst eu) (snd eu)) ->
          sum_squares (guided_row config.(train).(null_prob)
                         (broadcast_row mdl.(nullspk) (width emb))
                         (fst eu) (snd eu)) <= float32_max ->
          norm2 row = 1) /\
         (norm2 (guided_row config.(train).(null_prob)
                   (broadcast_row mdl.(nullspk) (width emb))
                   (fst eu) (snd eu)) < normalize_eps ->
          norm2 row < 1))
      (combine emb (rand_values sid rng.(draw_null))) cond.
Proof.
  intros H. apply compute_loss_ok in H.
  destruct H as (bm & bs & emb & cond & diff & logsnr & aux & sl & H).
  destruct H as (_ & _ & _ & He & _ & Hg & Hden & _).
  apply guided_embedding_value in Hg. destruct Hg as (Hlen & Hfits & ->).
  exists emb. eexists. split; [exact He|]. split; [exact Hden|]. split.
  - rewrite length_map, length_combine, Hlen. apply Nat.min_id.
  - split; [exact Hfits|].
    apply Forall2_map_right. intros [e u] _. simpl.
    split; [reflexivity|]. split.
    + intros Hnorm _. now apply normalize_row_unit.
    + intros Hsmall. now apply normalize_row_small.
Qed.

Lemma norm2_3_4 : norm2 [3; 4] = 5.
Proof.
  unfold norm2. simpl. replace (3 * 3 + (4 * 4 + 0)) with (5 * 5) by lra.
  apply sqrt_square. lra.
Qed.

Lemma normalize_eps_le_1 : normalize_eps <= 1.
Proof.
  unfold normalize_eps. apply Rle_trans with (/ 1).
  - apply Rinv_le_contravar; [lra|]. apply pow_R1_Rle. lra.
  - rewrite Rinv_1. lra.
Qed.

Lemma Forall2_right_Forall (A B : Type) (P : A -> B -> Prop) (Q : B -> Prop)
    (xs : list A) (ys : list B) :
  Forall2 P xs ys ->
  (forall x y, In x xs -> P x y -> Q y) ->
  Forall Q ys.
Proof.
  induction 1 as [|x y xs ys Hxy _ IH]; intros H; constructor.
  - apply (H x y); [now left|assumption].
  - apply IH. intros x' y' Hin. apply H. now right.
Qed.

Lemma norm2_0_1 : norm2 [0; 1] = 1.
Proof.
  unfold norm2. simpl. replace (0 * 0 + (1 * 1 + 0)) with 1 by lra.
  apply sqrt_1.
Qed.

Lemma float32_max_large : 25 <= float32_max.
Proof.
  unfold float32_max.
  assert (H1 : 1 <= 2 - / 2 ^ 23).
  { assert (/ 2 ^ 23 <= 1); [|lra].
    apply Rle_trans with (/ 1); [|rewrite Rinv_1; lra].
    apply Rinv_le_contravar; [lra|]. apply pow_R1_Rle. lra. }
  assert (H2 : 25 <= 2 ^ 127).
  { replace (2 ^ 127) with (2 ^ 5 * 2 ^ 122) by (rewrite <- pow_add; reflexivity).
    assert (1 <= 2 ^ 122) by (apply pow_R1_Rle; lra).
    simpl (2 ^ 5). nra. }
  nra.
Qed.

Lemma conditioning_rows_unit_norm_witness :
  exists loss losses arrays cond,
    compute_loss toy_config toy_model (toy_sid torch_float32) toy_speeches
      toy_draws = Ok (loss, losses, arrays) /\
    toy_model.(denoise) toy_speeches cond toy_draws.(draw_steps)
    = Ok arrays.(denoised) /\
    Forall (fun row => norm2 row = 1) cond.
Proof.
  do 3 eexists.
  destruct (conditioning_rows_unit_norm toy_config toy_model
              (toy_sid torch_float32) toy_speeches toy_draws _ _ _ eq_refl)
    as (emb & cond & He & Hden & _ & _ & Hrows).
  exists cond. split; [reflexivity|]. split; [exact Hden|].
  simpl in He. injection He as <-.
  pose proof normalize_eps_le_1 as Heps. pose proof float32_max_large as Hmax.
  assert (Hrow : forall u,
            normalize_eps
            <= norm2 (guided_row (/ 2) (broadcast_row [0; 1] 2) [3; 4] u) /\
            sum_squares (guided_row (/ 2) (broadcast_row [0; 1] 2) [3; 4] u)
            <= float32_max).
  { intros u. unfold guided_row, broadcast_row. simpl.
    destruct (Rltb u (/ 2)).
    - rewrite norm2_0_1. unfold sum_squares. simpl. lra.
    - rewrite norm2_3_4. unfold sum_squares. simpl. lra. }
  apply (Forall2_right_Forall _ _ _ _ _ _ Hrows).
  intros [e u] row Hin [_ [Hunit _]].
  simpl in Hin. destruct Hin as [Hin|[Hin|[]]]; injection Hin as <- <-;
    apply Hunit; apply Hrow.
Defined.

(** C5 as stated fails on a row of norm zero: a zero embedding row that is
    kept stays the zero row through [F.normalize], with norm [0]. *)
Lemma zero_row_stays_zero :
  guided_embedding (/ 2) [[0; 0]] [0; 1] [/ 2]
  = Ok [normalize_row [0; 0]] /\
  norm2 (normalize_row [0; 0]) = 0 /\
  norm2 (normalize_row [0; 0]) <> 1.
Proof.
  assert (Hz : norm2 (normalize_row [0; 0]) = 0).
  { rewrite norm2_normalize_row, norm2_zero_row. unfold Rdiv.
    apply Rmult_0_l. }
  split; [|split; [exact Hz|rewrite Hz; lra]].
  apply guided_embedding_value. split; [reflexivity|].
  split; [reflexivity|].
  simpl. unfold guided_row. rewrite Rltb_false by lra. reflexivity.
Qed.

(** C6: in a call that returns, the mask of line 63 is drawn with one entry
    of [[0, 1)] per speaker, and row [i] of the embedding given to the
    denoiser is the normalised null embedding (broadcast to the width of the
    lookup, which leaves a null embedding of that width as it is) when its own
    draw is below [null_prob], and the normalised looked-up row otherwise;
    with [null_prob = 1] every row is the normalised null embedding, with
    [null_prob = 0] the embedding is the normalised lookup.  The mask of a row
    is set for exactly [m] of the [N] equiprobable outcomes of a uniform draw
    at resolution [N] when [null_prob = m / N], and for [0 < null_prob < 1]
    every pattern of replaced and kept rows is the mask of some draw. *)
Theorem guidance_dropout_replaces_rows (config : Config) (mdl : Model)
    (sid : tensor1) (speeches : matrix) (rng : Draws) (loss : xreal)
    (losses : Losses) (arrays : Arrays) :
  compute_loss config mdl sid speeches rng = Ok (loss, losses, arrays) ->
  exists emb cond,
    mdl.(spkembed) sid = Ok emb /\
    mdl.(denoise) speeches cond rng.(draw_steps) = Ok arrays.(denoised) /\
    length cond = length emb /\
    length sid.(t_data) = length emb /\
    rand_draw sid (rand_values sid rng.(draw_null)) /\
    (length mdl.(nullspk) = width emb ->
     broadcast_row mdl.(nullspk) (width emb) = mdl.(nullspk)) /\
    Forall2
      (fun eu row =>
         (snd eu < config.(train).(null_prob) ->
          row = normalize_row (broadcast_row mdl.(nullspk) (width emb))) /\
         (~ snd eu < config.(train).(null_prob) ->
          row = normalize_row (fst eu)))
      (combine emb (rand_values sid rng.(draw_null))) cond /\
    (config.(train).(null_prob) = 1 ->
     cond = map (fun _ => normalize_row
                            (broadcast_row mdl.(nullspk) (width emb))) emb) /\
    (config.(train).(null_prob) = 0 -> cond = F_normalize emb) /\
    (forall N m, (0 < N)%nat -> (m <= N)%nat ->
       config.(train).(null_prob) = INR m / INR N ->
       count_occ Bool.bool_dec
         (null_mask config.(train).(null_prob) (uniform_grid N)) true = m) /\
    (0 < config.(train).(null_prob) < 1 ->
     forall want, length want = length emb ->
       exists raw,
         null_mask config.(train).(null_prob) (rand_values sid raw) = want).
Proof.
  intros H. apply compute_loss_ok in H.
  destruct H as (bm & bs & emb & cond & diff & logsnr & aux & sl & H).
  destruct H as (_ & _ & _ & He & _ & Hg & Hden & _).
  apply guided_embedding_value in Hg. destruct Hg as (Hlen & Hfits & ->).
  destruct (rand_values_draw sid rng.(draw_null)) as [[Hsid Hdraw] _].
  rewrite Forall_forall in Hdraw.
  exists emb. eexists. split; [exact He|]. split; [exact Hden|].
  split; [rewrite length_map, length_combine, Hlen; apply Nat.min_id|].
  split; [congruence|].
  split; [apply rand_values_draw|].
  split; [apply broadcast_row_same|].
  split; [|split; [|split; [|split]]].
  - apply Forall2_map_right. intros [e u] _. simpl. unfold guided_row. split.
    + intros Hu. now rewrite Rltb_true.
    + intros Hu. now rewrite Rltb_false.
  - intros Hp. apply map_combine_left; [assumption|].
    intros e u Hu. unfold guided_row. rewrite Rltb_true; [reflexivity|].
    specialize (Hdraw u Hu). lra.
  - intros Hp. unfold F_normalize. apply map_combine_left; [assumption|].
    intros e u Hu. unfold guided_row. rewrite Rltb_false; [reflexivity|].
    specialize (Hdraw u Hu). lra.
  - intros N m HN Hm ->. unfold null_mask. rewrite count_occ_map_true.
    now apply uniform_grid_below.
  - intros Hp want Hwant.
    destruct (null_mask_any_pattern _ want Hp) as (u & Hu & Hl & Hmask).
    exists u. rewrite (proj2 (rand_values_draw sid u)); [exact Hmask|].
    split; [congruence|exact Hu].
Qed.

Lemma guidance_dropout_replaces_rows_witness :
  exists loss losses arrays cond,
    compute_loss toy_config toy_model (toy_sid torch_float32) toy_speeches
      toy_draws = Ok (loss, losses, arrays) /\
    toy_model.(denoise) toy_speeches cond toy_draws.(draw_steps)
    = Ok arrays.(denoised) /\
    length cond = 2%nat.
Proof.
  do 3 eexists.
  destruct (guidance_dropout_replaces_rows toy_config toy_model
              (toy_sid torch_float32) toy_speeches toy_draws _ _ _ eq_refl)
    as (emb & cond & He & Hden & Hlen & _).
  exists cond. split; [reflexivity|]. split; [exact Hden|].
  simpl in He. injection He as <-. exact Hlen.
Defined.

(** * Further properties of the segment sampler *)

Local Open Scope Z_scope.

(** X1: a batch with no row makes [random_segment] raise [ValueError], also
    when no length is too short: [np.stack] gets no array to stack. *)
Theorem random_segment_empty_batch (A : Type) (config : Config)
    (speeches : list (list A)) (lengths sample : list Z) :
  random_segment config ([] : list (list A)) lengths sample = Raise ValueError /\
  random_segment config speeches [] [] = Raise ValueError.
Proof.
  split.
  - unfold random_segment, np_random_randint.
    destruct (existsb _ _); reflexivity.
  - unfold random_segment. simpl. now rewrite combine_nil.
Qed.

Lemma Forall2_map_flip (A B C : Type) (f : A -> B) (P : B -> C -> Prop)
    (l : list A) (st : list C) :
  Forall2 P (map f l) st -> Forall2 (fun s x => P (f x) s) st l.
Proof.
  revert st. induction l as [|x l IH]; intros st H; simpl in H;
    inversion H; subst; constructor; auto.
Qed.

(** X2: [random_segment] returns a batch only when every
    [lengths[i] - seglen], as an [np.long], is positive (so, where the
    subtraction does not wrap around below, only when [lengths[i]] is strictly
    above [seglen]); the batch then has at least one row, its rows have one
    common length, there are as many as the shorter of [speeches] and
    [lengths], and each is the slice of its input row at an offset of
    [[0, lengths[i] - seglen)]. *)
Theorem random_segment_ok_inv (A : Type) (config : Config)
    (speeches out : list (list A)) (lengths sample : list Z) :
  random_segment config speeches lengths sample = Ok out ->
  Forall (fun l => 0 < wrap64 (l - config.(train).(seglen)) /\
                   (- int64_half <= l - config.(train).(seglen) ->
                    config.(train).(seglen) < l)) lengths /\
  out <> [] /\
  (exists k, Forall (fun r => length r = k) out) /\
  length out = Nat.min (length speeches) (length lengths) /\
  exists start,
    Forall2 (fun s l => 0 <= s < wrap64 (l - config.(train).(seglen)))
            start lengths /\
    out = map (fun '(n, s) =>
                 py_slice n s (wrap64 (s + config.(train).(seglen))))
              (combine speeches start).
Proof.
  unfold random_segment.
  destruct (np_random_randint _ sample) as [start|e] eqn:E; [|discriminate].
  apply randint_ok_inv in E. destruct E as [Hhigh ->]. cbn [bind].
  set (high := map (fun l => wrap64 (l - config.(train).(seglen))) lengths)
    in *.
  assert (Hstart : Forall2 (fun h s => 0 <= s < h) high
                     (randint_values high sample)).
  { apply randint_values_range. eapply Forall_impl; [|exact Hhigh].
    simpl. intros h Hh. lia. }
  set (start := randint_values high sample) in *.
  set (rows := map _ (combine speeches start)).
  assert (Hrows : length rows = Nat.min (length speeches) (length lengths)).
  { unfold rows.
    rewrite length_map, length_combine, <- (Forall2_length Hstart).
    unfold high. now rewrite length_map. }
  intros Hstack. unfold np_stack in Hstack.
  destruct rows as [|r rs] eqn:Erows; [discriminate|].
  destruct (forallb _ rs) eqn:F; [|discriminate].
  injection Hstack as <-. split; [|split; [discriminate|split; [|split]]].
  - apply Forall_forall. intros l Hl.
    assert (Hin : In (wrap64 (l - config.(train).(seglen))) high).
    { unfold high. apply in_map_iff. now exists l. }
    rewrite Forall_forall in Hhigh. specialize (Hhigh _ Hin).
    split; [lia|]. intros Hlow.
    destruct (Z_lt_le_dec (l - config.(train).(seglen)) int64_half)
      as [Hup|Hup].
    + rewrite wrap64_id in Hhigh by (unfold np_long; lia). lia.
    + unfold int64_half in *. lia.
  - exists (length r). constructor; [reflexivity|].
    apply Forall_forall. intros r' Hin.
    rewrite forallb_forall in F. now apply Nat.eqb_eq, F.
  - exact Hrows.
  - exists start. split; [|now rewrite <- Erows].
    apply Forall2_map_flip with (P := fun h s => 0 <= s < h). exact Hstart.
Qed.

Lemma random_segment_ok_inv_witness :
  Forall (fun l => 0 < wrap64 (l - 2) /\ (- int64_half <= l - 2 -> 2 < l))
         [4; 3] /\
  length [[20; 30]; [50; 60]] = 2%nat.
Proof.
  destruct (random_segment_ok_inv Z (cfg_seglen 2)
              [[10; 20; 30; 40]; [50; 60; 70]] [[20; 30]; [50; 60]]
              [4; 3] [1; 0] eq_refl)
    as (Hall & _ & _ & Hlen & _).
  split; [exact Hall|exact Hlen].
Defined.

Lemma firstn_skipn_firstn (A : Type) (n : list A) (m a k : nat) :
  (a + k <= m)%nat ->
  firstn k (skipn a (firstn m n)) = firstn k (skipn a n).
Proof.
  intros H. replace m with (a + (m - a))%nat by lia.
  rewrite <- firstn_skipn_comm, firstn_firstn. f_equal. lia.
Qed.

Lemma py_slice_firstn (A : Type) (n : list A) (m : nat) (s k : Z) :
  0 <= s -> 0 <= k -> s + k <= Z.of_nat m -> s + k < int64_half ->
  py_slice (firstn m n) s (s + k) = py_slice n s (s + k).
Proof.
  intros Hs Hk Hm Hsmall.
  destruct (Nat.le_gt_cases (length n) m) as [Hshort|Hlong].
  - now rewrite firstn_all2.
  - unfold py_slice, slice_bound, array_len.
    rewrite length_firstn, Nat.min_l by lia.
    destruct (s <? 0) eqn:E1; [lia|].
    destruct (s + k <? 0) eqn:E2; [lia|].
    rewrite !Z.min_l by lia.
    replace (s + k - s) with k by lia.
    apply firstn_skipn_firstn. lia.
Qed.

(** Cutting an array after [2^63 - 1] entries or more changes no slice. *)
Lemma py_slice_firstn_long (A : Type) (n : list A) (m : nat) (lo hi : Z) :
  int64_half - 1 <= Z.of_nat m ->
  py_slice (firstn m n) lo hi = py_slice n lo hi.
Proof.
  intros Hm.
  destruct (Nat.le_gt_cases (length n) m) as [Hshort|Hlong].
  - now rewrite firstn_all2.
  - unfold py_slice, array_len.
    rewrite length_firstn, Nat.min_l by lia.
    rewrite !Z.min_r by lia.
    set (L := int64_half - 1) in *.
    assert (Ha : 0 <= slice_bound L lo <= L /\ 0 <= slice_bound L hi <= L).
    { assert (0 <= L) by (unfold L, int64_half; lia).
      unfold slice_bound.
      destruct (lo <? 0) eqn:Elo; destruct (hi <? 0) eqn:Ehi; lia. }
    destruct (Z_le_gt_dec (slice_bound L hi) (slice_bound L lo)) as [Hle|Hgt].
    + replace (Z.to_nat (slice_bound L hi - slice_bound L lo)) with 0%nat
        by lia.
      reflexivity.
    + apply firstn_skipn_firstn. lia.
Qed.

(** X3: the entries of a row from index [lengths[i] - 1] on (its padding, and
    its last valid sample) have no effect on the batch: cutting every row down
    to its first [lengths[i] - 1] entries gives the same result, for every
    sample the generator can draw. *)
Theorem random_segment_ignores_tail (A : Type) (config : Config)
    (speeches : list (list A)) (lengths sample : list Z) :
  0 <= config.(train).(seglen) ->
  randint_sample (map (fun l => l - config.(train).(seglen)) lengths) sample ->
  random_segment config (drop_tail speeches lengths) lengths sample
  = random_segment config speeches lengths sample.
Proof.
  intros Hk Hsample. apply randint_sample_range in Hsample.
  unfold random_segment.
  destruct (np_random_randint _ sample) as [start|e] eqn:E; [|reflexivity].
  apply randint_ok_inv in E. destruct E as [Hhigh ->]. cbn [bind]. f_equal.
  revert lengths sample Hsample Hhigh.
  induction speeches as [|n speeches IH]; intros lengths sample Hsample Hhigh;
    [reflexivity|].
  destruct lengths as [|l lengths]; simpl in Hsample.
  - inversion Hsample; subst. reflexivity.
  - inversion Hsample as [|h s hs sample' Hhs Hrest]; subst.
    simpl in Hhigh. inversion Hhigh as [|? ? Hh Hhigh']; subst.
    unfold drop_tail. simpl. f_equal; [|now apply IH].
    destruct (Z_lt_le_dec l int64_half) as [Hsmall|Hbig].
    + assert (Hw : wrap64 (l - config.(train).(seglen))
                   = l - config.(train).(seglen)).
      { apply wrap64_id. unfold np_long, int64_half in *. lia. }
      rewrite Hw, Z.mod_small by lia.
      rewrite wrap64_id by (unfold np_long, int64_half in *; lia).
      apply py_slice_firstn; lia.
    + apply py_slice_firstn_long. lia.
Qed.

Lemma random_segment_ignores_tail_witness :
  random_segment (cfg_seglen 2) [[10; 20; 30]; [50; 60; 70]] [4; 4] [1; 0]
  = random_segment (cfg_seglen 2) [[10; 20; 30; 40]; [50; 60; 70; 80]] [4; 4]
      [1; 0].
Proof.
  refine (random_segment_ignores_tail Z (cfg_seglen 2)
            [[10; 20; 30; 40]; [50; 60; 70; 80]] [4; 4] [1; 0] _ _).
  - simpl. lia.
  - apply randint_sample_range. repeat constructor; simpl; lia.
Defined.

(** * Further properties of the loss assembler *)

Local Open Scope R_scope.

(** X5: when the steps before line 64 go through and the null embedding
    broadcasts to the rows of the lookup, but the lookup has another number of
    rows than [sid] has entries (the length of the mask), the masked
    assignment of line 64 raises [IndexError]. *)
Theorem compute_loss_embedding_rows_mismatch (config : Config) (mdl : Model)
    (sid : tensor1) (speeches : matrix) (rng : Draws) (bm : matrix)
    (bs : list R) (b emb : matrix) :
  (0 < config.(model).(steps))%Z ->
  mdl.(diffusion) speeches rng.(draw_steps) = Ok (bm, bs) ->
  torch_add_noise bm (torch_randn_like bm rng.(draw_noise)) bs = Ok b ->
  mdl.(spkembed) sid = Ok emb ->
  is_floating_point sid.(t_dtype) = true ->
  value_fits mdl.(nullspk) emb = true ->
  length emb <> length sid.(t_data) ->
  compute_loss config mdl sid speeches rng = Raise IndexError.
Proof.
  intros Hsteps Hd Hb He Hf _ Hrows.
  unfold compute_loss, torch_randint, torch_rand_like.
  apply Z.leb_gt in Hsteps. rewrite Hsteps. cbn [bind].
  rewrite Hd. cbn [bind]. rewrite Hb. cbn [bind]. rewrite He. cbn [bind].
  rewrite Hf. cbn [bind].
  rewrite guided_embedding_mask_mismatch; [reflexivity|].
  destruct (rand_values_draw sid rng.(draw_null)) as [[Hlen _] _]. congruence.
Qed.

Lemma compute_loss_embedding_rows_mismatch_witness :
  compute_loss toy_config
    {| diffusion := toy_model.(diffusion);
       spkembed := fun _ => Ok [[3; 4]];
       nullspk := toy_model.(nullspk);
       denoise := toy_model.(denoise);
       scheduler := toy_model.(scheduler) |}
    (toy_sid torch_float32) toy_speeches toy_draws
  = Raise IndexError.
Proof.
  refine (compute_loss_embedding_rows_mismatch toy_config _
            (toy_sid torch_float32) toy_speeches toy_draws
            toy_speeches [1; 1] _ [[3; 4]] _ _ _ _ _ _ _).
  - reflexivity.
  - reflexivity.
  - reflexivity.
  - reflexivity.
  - reflexivity.
  - reflexivity.
  - simpl. discriminate.
Defined.

Lemma sigmoid_range (x : R) : 0 < sigmoid x < 1.
Proof.
  unfold sigmoid. pose proof (exp_pos (- x)) as He. split.
  - apply Rinv_0_lt_compat. lra.
  - apply Rlt_le_trans with (/ 1).
    + apply Rinv_1_lt_contravar; lra.
    + rewrite Rinv_1. lra.
Qed.

Lemma ln_clamped_monotone (x y : R) :
  x <= y -> ln (Rmax x clamp_floor) <= ln (Rmax y clamp_floor).
Proof.
  intros Hxy. pose proof clamp_floor_pos. apply ln_le_compat.
  - pose proof (Rmax_r x clamp_floor). lra.
  - now apply Rle_max_compat_r.
Qed.

(** X6: in a call that returns, every entry of the reported [alphas_bar] lies
    in [[0, 1]], the prior loss is a number between [2 * log(1e-7)] and [0], and
    so the loss is at least the noise-estimation loss and exceeds it by at most
    [-2 * log(1e-7)]; for tensors of one shape with an entry the loss is not
    negative. *)
Theorem compute_loss_bounds (config : Config) (mdl : Model) (sid : tensor1)
    (speeches : matrix) (rng : Draws) (loss : xreal) (losses : Losses)
    (arrays : Arrays) :
  compute_loss config mdl sid speeches rng = Ok (loss, losses, arrays) ->
  Forall (fun a => 0 <= a <= 1) arrays.(alphas_bar) /\
  exists s,
    losses.(schedule_loss) = XFin s /\
    2 * ln clamp_floor <= s <= 0 /\
    (forall n, losses.(noise_estim) = XFin n ->
       exists l, loss = XFin l /\ n <= l <= n - 2 * ln clamp_floor) /\
    (same_shape arrays.(base) arrays.(denoised) ->
     concat arrays.(base) <> [] ->
     exists l, loss = XFin l /\ 0 <= l).
Proof.
  intros H. apply compute_loss_ok in H.
  destruct H as (bm & bs & emb & cond & diff & logsnr & aux & sl & H).
  destruct H as (_ & _ & _ & _ & _ & _ & _ & Hdiff & _ & Hp & Hab & -> & ->).
  rewrite Hab. cbn [noise_estim schedule_loss].
  assert (Hrange : Forall (fun a => 0 <= a <= 1) (map sigmoid logsnr)).
  { apply Forall_forall. intros a Hin. apply in_map_iff in Hin.
    destruct Hin as [x [<- _]]. pose proof (sigmoid_range x). lra. }
  split; [exact Hrange|].
  assert (Hne : map sigmoid logsnr <> []).
  { intros E. rewrite E in Hp. discriminate. }
  rewrite schedule_prior_value in Hp by assumption. injection Hp as <-.
  destruct (hd_last_in _ Hne) as [Hhd Hlast].
  rewrite Forall_forall in Hrange.
  pose proof (Hrange _ Hhd) as Bhd. pose proof (Hrange _ Hlast) as Blast.
  set (a := ln (Rmax (1 - last (map sigmoid logsnr) 0) clamp_floor)).
  set (b := ln (Rmax (hd 0 (map sigmoid logsnr)) clamp_floor)).
  assert (Ha : ln clamp_floor <= a <= 0).
  { apply ln_clamped_bounds. lra. }
  assert (Hb : ln clamp_floor <= b <= 0).
  { apply ln_clamped_bounds. lra. }
  exists (a + b). split; [reflexivity|]. split; [lra|]. split.
  - intros n ->. exists (n - (a + b)). split; [reflexivity|lra].
  - intros Hshape Hcount.
    rewrite (torch_sub_same _ _ Hshape) in Hdiff. injection Hdiff as <-.
    fold (noise_estimation arrays.(base) arrays.(denoised)).
    rewrite (noise_estimation_mean _ _ Hshape Hcount).
    eexists. split; [reflexivity|].
    assert (0 <= sum_list (abs_differences arrays.(base) arrays.(denoised))
                 / INR (length (concat arrays.(base)))).
    { unfold Rdiv. apply Rmult_le_pos.
      - apply sum_list_nonneg, abs_differences_nonneg.
      - left. apply Rinv_0_lt_compat. apply lt_0_INR.
        destruct (concat arrays.(base)); [congruence|simpl; lia]. }
    lra.
Qed.

Lemma compute_loss_bounds_witness :
  exists loss losses arrays s,
    compute_loss toy_config toy_model (toy_sid torch_float32) toy_speeches
      toy_draws = Ok (loss, losses, arrays) /\
    losses.(schedule_loss) = XFin s /\ s <= 0.
Proof.
  do 3 eexists.
  destruct (compute_loss_bounds toy_config toy_model (toy_sid torch_float32)
              toy_speeches toy_draws _ _ _ eq_refl)
    as (_ & s & Hs & [_ Hneg] & _).
  exists s. split; [reflexivity|]. split; assumption.
Defined.

(** X7: the prior loss reads the two end entries of [alphas_bar] only, and it
    grows with the first entry and with the decrease of the last one: raising
    [alphas_bar[0]] or lowering [alphas_bar[-1]] never lowers it. *)
Theorem schedule_prior_monotone (t t' : list R) :
  t <> [] -> t' <> [] ->
  hd 0 t <= hd 0 t' ->
  last t' 0 <= last t 0 ->
  exists v v',
    schedule_prior t = Ok (XFin v) /\
    schedule_prior t' = Ok (XFin v') /\
    v <= v' /\
    (hd 0 t = hd 0 t' -> last t 0 = last t' 0 -> v = v').
Proof.
  intros Hne Hne' Hhd Hlast.
  do 2 eexists. split; [now apply schedule_prior_value|].
  split; [now apply schedule_prior_value|]. split.
  - pose proof (ln_clamped_monotone (hd 0 t) (hd 0 t') Hhd).
    pose proof (ln_clamped_monotone (1 - last t 0) (1 - last t' 0)).
    lra.
  - intros -> ->. reflexivity.
Qed.

Lemma schedule_prior_monotone_witness :
  exists v v',
    schedule_prior [/ 2; / 4; / 2] = Ok (XFin v) /\
    schedule_prior [1; 0] = Ok (XFin v') /\
    v <= v'.
Proof.
  destruct (schedule_prior_monotone [/ 2; / 4; / 2] [1; 0])
    as (v & v' & Hv & Hv' & Hle & _).
  - discriminate.
  - discriminate.
  - simpl. lra.
  - simpl. lra.
  - exists v, v'. repeat split; assumption.
Defined.

Lemma norm2_nonneg (x : list R) : 0 <= norm2 x.
Proof. unfold norm2. apply sqrt_pos. Qed.

Lemma norm2_times (c : R) (x : list R) :
  0 < c -> norm2 (map (Rmult c) x) = c * norm2 x.
Proof.
  intros Hc.
  assert (Hmap : map (Rmult c) x = map (fun v => v / / c) x).
  { apply map_ext. intros v. field. lra. }
  rewrite Hmap, norm2_scale by now apply Rinv_0_lt_compat.
  field. lra.
Qed.

Lemma normalize_row_times (c : R) (x : list R) :
  0 < c -> normalize_eps <= norm2 x -> normalize_eps <= c * norm2 x ->
  normalize_row (map (Rmult c) x) = normalize_row x.
Proof.
  intros Hc Hx Hcx. unfold normalize_row.
  rewrite norm2_times by assumption.
  rewrite !Rmax_left by assumption. rewrite map_map.
  apply map_ext. intros v. pose proof normalize_eps_pos. field. lra.
Qed.

Lemma width_tensor_scale (c : R) (m : matrix) :
  width (tensor_scale c m) = width m.
Proof. destruct m as [|e m]; [reflexivity|]. unfold width. simpl. apply length_map. Qed.

Lemma value_fits_scale (c : R) (null : list R) (emb : matrix) :
  value_fits (map (Rmult c) null) (tensor_scale c emb) = value_fits null emb.
Proof.
  destruct emb as [|e emb]; [reflexivity|]. simpl. now rewrite !length_map.
Qed.

Lemma norm2_repeat_ge (v : R) (n : nat) :
  norm2 [v] <= norm2 (repeat v (S n)).
Proof.
  unfold norm2. apply sqrt_le_1_alt. simpl.
  assert (0 <= sum_list (map (fun x => x * x) (repeat v n))).
  { apply sum_list_nonneg. apply Forall_forall. intros x Hin.
    apply in_map_iff in Hin. destruct Hin as [y [<- _]]. nra. }
  lra.
Qed.

Lemma broadcast_row_scale (c : R) (null : list R) (E : nat) :
  0 < c ->
  normalize_eps <= norm2 null -> normalize_eps <= c * norm2 null ->
  length null = E \/ length null = 1%nat ->
  normalize_row (broadcast_row (map (Rmult c) null) E)
  = normalize_row (broadcast_row null E).
Proof.
  intros Hc Hn Hcn Hfit. unfold broadcast_row. rewrite length_map.
  destruct (Nat.eqb (length null) E) eqn:HE.
  - now apply normalize_row_times.
  - destruct Hfit as [Hfit|Hfit];
      [apply Nat.eqb_neq in HE; contradiction|].
    destruct null as [|v [|v' null]]; try discriminate. simpl.
    destruct E as [|n]; [reflexivity|].
    replace (repeat (c * v) (S n)) with (map (Rmult c) (repeat v (S n)))
      by apply map_repeat.
    pose proof (norm2_repeat_ge v n) as Hge.
    apply normalize_row_times; [assumption|lra|nra].
Qed.

(** X8: over the reals, the embedding given to the denoiser depends on the
    direction of the rows only: multiplying the looked-up embedding and the null embedding by
    one factor [c > 0] changes nothing, as long as the norms stay at or above
    the [eps] of [F.normalize]. *)
Theorem guided_embedding_scale_invariant (p c : R) (emb : matrix)
    (null u : list R) :
  0 < c ->
  Forall (fun x => normalize_eps <= norm2 x /\ normalize_eps <= c * norm2 x)
         (null :: emb) ->
  guided_embedding p (tensor_scale c emb) (map (Rmult c) null) u
  = guided_embedding p emb null u.
Proof.
  intros Hc Hall. inversion Hall as [|? ? [Hn Hcn] Hemb]; subst. clear Hall.
  unfold guided_embedding, masked_assign.
  generalize (null_mask p u). clear u. intros mask.
  rewrite value_fits_scale, width_tensor_scale.
  unfold tensor_scale at 1. rewrite length_map.
  destruct (negb (Nat.eqb (length mask) (length emb))); [reflexivity|].
  destruct (value_fits null emb) eqn:Hfits; [|reflexivity].
  cbn [bind]. apply (f_equal Ok). unfold F_normalize, tensor_scale.
  rewrite !map_map.
  assert (Hnull : emb = [] \/
            normalize_row (broadcast_row (map (Rmult c) null) (width emb))
            = normalize_row (broadcast_row null (width emb))).
  { destruct emb as [|e emb]; [now left|right].
    apply broadcast_row_scale; try assumption.
    simpl in Hfits. apply orb_true_iff in Hfits.
    destruct Hfits as [H|H]; apply Nat.eqb_eq in H; [left|right]; assumption. }
  destruct Hnull as [->|Hnull]; [reflexivity|].
  revert Hnull. generalize (width emb). intros E Hnull. clear Hfits.
  revert mask.
  induction Hemb as [|e emb [He Hce] Hemb IH]; intros [|b mask];
    try reflexivity.
  simpl. f_equal; [|apply IH].
  destruct b; [exact Hnull|now apply normalize_row_times].
Qed.

Lemma guided_embedding_scale_invariant_witness :
  guided_embedding (/ 2) (tensor_scale 2 [[3; 4]]) (map (Rmult 2) [0; 1])
    [/ 4]
  = guided_embedding (/ 2) [[3; 4]] [0; 1] [/ 4].
Proof.
  apply (guided_embedding_scale_invariant (/ 2) 2 [[3; 4]] [0; 1] [/ 4]);
    [lra|].
  pose proof norm2_0_1 as H1. pose proof norm2_3_4 as H5.
  pose proof normalize_eps_le_1 as He.
  constructor; [rewrite H1; lra|].
  constructor; [rewrite H5; lra|constructor].
Defined.

(** X9: [null_prob] is not checked against [[0, 1]]: for a lookup with at
    least one row, a null embedding of the width of its rows and draws of
    [[0, 1)], one per row, any value of [1] or more replaces every row by the
    null embedding, and any value of [0] or less replaces none. *)
Theorem guided_embedding_saturates (p : R) (emb : matrix) (null u : list R) :
  emb <> [] ->
  Forall (fun e => length e = length null) emb ->
  length u = length emb ->
  Forall (fun x => 0 <= x < 1) u ->
  (1 <= p ->
   guided_embedding p emb null u
   = Ok (map (fun _ => normalize_row null) emb)) /\
  (p <= 0 -> guided_embedding p emb null u = Ok (F_normalize emb)).
Proof.
  intros Hne Hwidth Hlen Hu. rewrite Forall_forall in Hu.
  assert (Hfits : value_fits null emb = true /\
                  broadcast_row null (width emb) = null).
  { destruct emb as [|e emb]; [congruence|].
    inversion Hwidth as [|? ? He _]; subst. unfold width. simpl.
    rewrite He, Nat.eqb_refl. split; [reflexivity|].
    now apply broadcast_row_same. }
  destruct Hfits as [Hfits Hrow].
  split; intros Hp.
  - apply guided_embedding_value. split; [assumption|].
    split; [assumption|]. rewrite Hrow. symmetry.
    apply map_combine_left; [assumption|].
    intros e x Hx. unfold guided_row. rewrite Rltb_true; [reflexivity|].
    specialize (Hu x Hx). lra.
  - apply guided_embedding_value. split; [assumption|].
    split; [assumption|]. rewrite Hrow. symmetry.
    unfold F_normalize. apply map_combine_left; [assumption|].
    intros e x Hx. unfold guided_row. rewrite Rltb_false; [reflexivity|].
    specialize (Hu x Hx). lra.
Qed.

Lemma guided_embedding_saturates_witness :
  guided_embedding 3 [[3; 4]; [1; 0]] [0; 1] [0; / 2]
  = Ok [normalize_row [0; 1]; normalize_row [0; 1]].
Proof.
  refine (proj1 (guided_embedding_saturates 3 [[3; 4]; [1; 0]] [0; 1]
                   [0; / 2] _ _ _ _) _).
  - discriminate.
  - repeat constructor.
  - reflexivity.
  - repeat constructor; lra.
  - lra.
Defined.

Lemma sum_list_le (M : R) (l : list R) :
  Forall (fun x => x <= M) l -> sum_list l <= INR (length l) * M.
Proof.
  induction 1 as [|x l Hx _ IH].
  - simpl. lra.
  - change (length (x :: l)) with (S (length l)). rewrite S_INR.
    simpl. lra.
Qed.

(** X10: the noise-estimation loss is a mean, so it is bounded by the largest
    absolute difference: when [base] and [denoised] have one shape and an
    entry, and differ by at most [M] in every entry, it is a number between [0]
    and [M]. *)
Theorem noise_estimation_bounded (M : R) (b d : matrix) :
  same_shape b d ->
  concat b <> [] ->
  Forall (fun x => x <= M) (abs_differences b d) ->
  exists v, noise_estimation b d = XFin v /\ 0 <= v <= M.
Proof.
  intros Hs Hne HM. eexists. split; [now apply noise_estimation_mean|].
  destruct (flatten_abs_sub b d Hs) as [_ Hlen].
  assert (Hn : 0 < INR (length (concat b))).
  { destruct (concat b); [congruence|]. apply lt_0_INR. simpl. lia. }
  pose proof (sum_list_le M _ HM) as Hsum. rewrite Hlen in Hsum.
  pose proof (sum_list_nonneg _ (abs_differences_nonneg b d)) as Hpos.
  assert (Hinv : 0 < / INR (length (concat b)))
    by now apply Rinv_0_lt_compat.
  unfold Rdiv. split.
  - apply Rmult_le_pos; lra.
  - apply Rmult_le_reg_r with (INR (length (concat b))); [assumption|].
    rewrite Rmult_assoc, Rinv_l by lra. lra.
Qed.

Lemma noise_estimation_bounded_witness :
  exists v, noise_estimation [[1; 2]; [3; 4]] [[2; 1]; [3; 6]] = XFin v /\
            0 <= v <= 2.
Proof.
  apply (noise_estimation_bounded 2 [[1; 2]; [3; 4]] [[2; 1]; [3; 6]]).
  - repeat constructor.
  - discriminate.
  - unfold abs_differences. simpl.
    repeat (constructor; [unfold Rabs; destruct (Rcase_abs _); lra|]).
    constructor.
Defined.

Lemma abs_sub_row_sym (x y : list R) :
  map Rabs (map (fun '(u, v) => u - v) (combine x y))
  = map Rabs (map (fun '(u, v) => u - v) (combine y x)).
Proof.
  revert y. induction x as [|u x IH]; intros [|v y]; simpl; try reflexivity.
  now rewrite IH, Rabs_minus_sym.
Qed.

(** X11: the noise-estimation loss does not tell [base] from [denoised]:
    exchanging the two tensors gives the same value, whatever their shapes. *)
Theorem noise_estimation_sym (b d : matrix) :
  noise_estimation d b = noise_estimation b d.
Proof.
  unfold noise_estimation. f_equal. unfold tensor_abs, tensor_sub.
  revert d. induction b as [|x b IH]; intros [|y d]; simpl; try reflexivity.
  now rewrite IH, abs_sub_row_sym.
Qed.

Lemma add_noise_row (m e : list R) (s : R) :
  length m = length e ->
  length (map (fun '(a, b) => a + b * s) (combine m e)) = length m /\
  (s = 0 \/ Forall (fun x => x = 0) e ->
   map (fun '(a, b) => a + b * s) (combine m e) = m).
Proof.
  intros Hlen. split.
  - rewrite length_map, length_combine, <- Hlen. apply Nat.min_id.
  - intros Hz. revert e Hlen Hz.
    induction m as [|a m IH]; intros [|b e] Hlen Hz; simpl in *;
      try discriminate; [reflexivity|].
    f_equal.
    + destruct Hz as [-> | Hz]; [lra|]. inversion Hz; subst. lra.
    + apply IH; [now injection Hlen|].
      destruct Hz as [Hz|Hz]; [now left|right; now inversion Hz].
Qed.

(** X12: for a noise tensor in the shape of [base_mean] and one deviation per
    row, the noised reference [base] of line 59 has the shape of [base_mean];
    it is [base_mean] itself when every deviation is [0], and also when the
    drawn noise is [0] everywhere. *)
Theorem add_noise_shape (mean noise : matrix) (std : list R) :
  same_shape mean noise ->
  length std = length mean ->
  same_shape mean (add_noise mean noise std) /\
  (Forall (fun s => s = 0) std -> add_noise mean noise std = mean) /\
  (Forall (Forall (fun x => x = 0)) noise -> add_noise mean noise std = mean).
Proof.
  intros Hs. revert std.
  induction Hs as [|m e mean noise Hme Hs IH]; intros [|s std] Hlen;
    simpl in Hlen; try discriminate.
  - repeat split; constructor.
  - destruct (IH std) as (IH1 & IH2 & IH3); [now injection Hlen|].
    destruct (add_noise_row m e s Hme) as [Hrow Hzero].
    unfold add_noise. simpl. fold (add_noise mean noise std).
    split; [|split].
    + constructor; [now rewrite Hrow|exact IH1].
    + intros Hz. inversion Hz; subst.
      rewrite Hzero by now left. f_equal. now apply IH2.
    + intros Hz. inversion Hz; subst.
      rewrite Hzero by now right. f_equal. now apply IH3.
Qed.

Lemma add_noise_shape_witness :
  same_shape toy_speeches (add_noise toy_speeches [[1; -1]; [0; 2]] [0; 0]) /\
  add_noise toy_speeches [[1; -1]; [0; 2]] [0; 0] = toy_speeches.
Proof.
  destruct (add_noise_shape toy_speeches [[1; -1]; [0; 2]] [0; 0])
    as (Hshape & Hzero & _).
  - repeat constructor.
  - reflexivity.
  - split; [exact Hshape|]. apply Hzero. repeat constructor.
Defined.
